(** * SproutCore: the observer set and the string formatter

    A shallow embedding of two files of the framework:

    - [mixins/string.js]: the [fmt] method of [SC.String], and its
      methods for case conversion, trimming and splitting;
    - [private/observer_set.js]: [SC._ObserverSet], the registry of
      target/method observers kept for one key.

    JavaScript objects that are shared and mutated in place (the [SC.Set]
    instances stored in an observer set and the array cached by
    [getMembers]) live in an explicit heap, addressed by location.  An
    observer set itself is handed to each method and handed back as the
    method leaves it; whatever two observer sets could have in common is
    in the heap. *)

From Stdlib Require Import ZArith Lia Ascii String.
From stdpp Require Import base option list strings pretty gmap fin_maps.

Local Open Scope string_scope.
Local Open Scope list_scope.

(** ** [SC.String.fmt] *)
Module SCString.

(** An argument of [fmt].  [null] and [undefined] are told apart by the
    code; any other value is used only through its [toString()]. *)
Inductive arg :=
  | ArgNull
  | ArgUndefined
  | ArgValue (toString : string).

(** The character class [[0-9]]. *)
Definition is_digit (c : ascii) : bool :=
  let n := nat_of_ascii c in (48 <=? n)%nat && (n <=? 57)%nat.

Definition digit_value (c : ascii) : Z := Z.of_nat (nat_of_ascii c) - 48.

(** [parseInt(str, 0)] on a string of decimal digits.  Radix 0 reads a
    digit string as decimal (engines older than ECMAScript 5 were free to
    read one that starts with 0 as octal). *)
Fixpoint parseInt_from (acc : Z) (str : string) : Z :=
  match str with
  | EmptyString => acc
  | String c str' => parseInt_from (10 * acc + digit_value c) str'
  end.

Definition parseInt (str : string) : Z := parseInt_from 0 str.

(** The greedy group [([0-9]+)]: the longest prefix of digits, and what
    follows it. *)
Fixpoint span_digits (s : string) : string * string :=
  match s with
  | String c s' =>
      if is_digit c
      then let '(ds, rest) := span_digits s' in (String c ds, rest)
      else (EmptyString, s)
  | EmptyString => (EmptyString, EmptyString)
  end.

(** One attempt of the regular expression [/%@([0-9]+)?/] at the start of
    [s]: the capture group ([None] when it did not take part in the match)
    and the length of the whole match. *)
Definition match_token (s : string) : option (option string * nat) :=
  match s with
  | String "%" (String "@" rest) =>
      let '(ds, _) := span_digits rest in
      match ds with
      | EmptyString => Some (None, 2%nat)
      | _ => Some (Some ds, (2 + String.length ds)%nat)
      end
  | _ => None
  end.

(** [arguments[i]]: reading past either end of the array gives
    [undefined]. *)
Definition arguments_get (args : list arg) (i : Z) : arg :=
  if (i <? 0)%Z then ArgUndefined
  else default ArgUndefined (args !! Z.to_nat i).

(** A captured group is truthy unless it is missing or empty. *)
Definition capture_truthy (argIndex : option string) : option string :=
  match argIndex with
  | Some (String c ds) => Some (String c ds)
  | _ => None
  end.

(** The replacement function handed to [replace].  It closes over [args]
    and over the counter [idx], which is threaded through explicitly:
    the result is the replacement text and the new value of [idx]. *)
Definition fmt_callback (args : list arg) (idx : Z) (argIndex : option string)
  : string * Z :=
  let '(argIndex, idx) :=
    match capture_truthy argIndex with
    | Some ds => (parseInt ds - 1, idx)%Z
    | None => (idx, idx + 1)%Z
    end in
  let s := arguments_get args argIndex in
  (match s with
   | ArgNull => "(null)"
   | ArgUndefined => ""
   | ArgValue str => str
   end, idx).

(** [String.prototype.replace] with a global regular expression: the text
    is scanned from left to right, every match is replaced by what the
    callback returns and scanning resumes behind the match.  [skip] counts
    the characters of the current match that are still to be passed
    over. *)
Fixpoint replace_loop (args : list arg) (s : string) (skip : nat) (idx : Z)
  : string * Z :=
  match s with
  | EmptyString => (EmptyString, idx)
  | String c s' =>
      match skip with
      | S k => replace_loop args s' k idx
      | O =>
          match match_token s with
          | Some (argIndex, len) =>
              let '(out, idx1) := fmt_callback args idx argIndex in
              let '(ret, idx2) := replace_loop args s' (pred len) idx1 in
              (out +:+ ret, idx2)
          | None =>
              let '(ret, idx1) := replace_loop args s' O idx in
              (String c ret, idx1)
          end
      end
  end.

(** [fmt]: the receiver is [this], the arguments are [args]. *)
Definition fmt (this : string) (args : list arg) : string :=
  fst (replace_loop args this O 0%Z).

(** The value of the counter [idx] when [fmt] returns. *)
Definition fmt_final_idx (this : string) (args : list arg) : Z :=
  snd (replace_loop args this O 0%Z).

(** *** Templates as sequences of pieces

    A template read the way the documentation describes it: literal
    characters, [%@] tokens and [%@N] tokens. *)
Inductive piece :=
  | Text (c : ascii)
  | Next
  | Numbered (digits : string).

Definition piece_text (p : piece) : string :=
  match p with
  | Text c => String c EmptyString
  | Next => "%@"
  | Numbered ds => "%@" +:+ ds
  end.

Fixpoint template (ps : list piece) : string :=
  match ps with
  | [] => EmptyString
  | p :: ps' => piece_text p +:+ template ps'
  end.

Fixpoint all_digits (s : string) : bool :=
  match s with
  | EmptyString => true
  | String c s' => is_digit c && all_digits s'
  end.

Definition starts_with_digit (ps : list piece) : bool :=
  match ps with
  | Text c :: _ => is_digit c
  | _ => false
  end.

Definition starts_with_at (ps : list piece) : bool :=
  match ps with
  | Text c :: _ => if decide (c = "@"%char) then true else false
  | _ => false
  end.

(** The pieces spell the template unambiguously: a number is a non-empty
    digit string, no literal digit follows a token directly, and no
    literal [@] follows a literal [%]. *)
Fixpoint well_delimited (ps : list piece) : bool :=
  match ps with
  | [] => true
  | Text c :: ps' =>
      (if decide (c = "%"%char) then negb (starts_with_at ps') else true)
      && well_delimited ps'
  | Next :: ps' => negb (starts_with_digit ps') && well_delimited ps'
  | Numbered ds :: ps' =>
      negb (if decide (ds = EmptyString) then true else false)
      && all_digits ds
      && negb (starts_with_digit ps') && well_delimited ps'
  end.

(** The pieces of a template, read off with the regular expression of
    [fmt]. *)
Fixpoint pieces (s : string) (skip : nat) : list piece :=
  match s with
  | EmptyString => []
  | String c s' =>
      match skip with
      | S k => pieces s' k
      | O =>
          match match_token s with
          | Some (Some ds, len) => Numbered ds :: pieces s' (pred len)
          | Some (None, len) => Next :: pieces s' (pred len)
          | None => Text c :: pieces s' O
          end
      end
  end.

(** How one argument is rendered: a missing argument ([None]) as the empty
    string, [null] as [(null)]. *)
Definition render_arg (a : option arg) : string :=
  match a with
  | None => ""
  | Some ArgNull => "(null)"
  | Some ArgUndefined => ""
  | Some (ArgValue str) => str
  end.

(** The argument at 1-based position [n]. *)
Definition nth_argument (args : list arg) (n : Z) : option arg :=
  if (n <=? 0)%Z then None else args !! Z.to_nat (n - 1).

(** The substitution as documented: [next] is the 1-based position of the
    argument the next [%@] takes. *)
Fixpoint render (args : list arg) (ps : list piece) (next : Z) : string :=
  match ps with
  | [] => EmptyString
  | Text c :: ps' => String c (render args ps' next)
  | Next :: ps' =>
      render_arg (nth_argument args next) +:+ render args ps' (next + 1)
  | Numbered ds :: ps' =>
      render_arg (nth_argument args (parseInt ds)) +:+ render args ps' next
  end.

(** The number of [%@] tokens without a number. *)
Fixpoint count_next (ps : list piece) : Z :=
  match ps with
  | [] => 0
  | Next :: ps' => 1 + count_next ps'
  | _ :: ps' => count_next ps'
  end.

End SCString.

(** ** [SC._ObserverSet] *)
Module ObserverSet.

(** Objects and functions are known by their identity. *)
Definition ref := N.
Definition method := N.

(** A JavaScript value in the role of a target: the falsy values one by
    one, and any truthy value by its identity. *)
Inductive value :=
  | JSUndefined
  | JSNull
  | JSFalse
  | JSZero
  | JSNaN
  | JSEmptyString
  | JSRef (r : ref).

#[global] Instance value_eq_dec : EqDecision value.
Proof. solve_decision. Defined.

(** [(target) ? ... : ...]: the truth value of a target. *)
Definition truthy (v : value) : bool :=
  match v with
  | JSRef _ => true
  | _ => false
  end.

(** A location in the heap. *)
Abbreviation loc := nat.

(** Modelled from the spec: [SC.Set], the set class of the framework,
    which [SC._ObserverSet] uses and does not define.  A Target-Method Set
    holds handler references, unique by identity; the code reads it
    through [length] and the indices below it, so the handlers are kept as
    a duplicate-free list in index order.  [target] and [isTargetSet] are
    the two properties [SC._ObserverSet] attaches to the instance. *)
Record SCSet := mkSCSet {
  target : value;
  isTargetSet : bool;
  items : list method;
}.

(** Modelled from the spec: [SC.Set.create()], the empty set; neither
    property is attached yet. *)
Definition Set_create : SCSet :=
  {| target := JSUndefined; isTargetSet := false; items := [] |}.

(** Modelled from the spec: [SC.Set.add], a no-op when the handler is
    already present. *)
Definition Set_add (m : method) (s : SCSet) : SCSet :=
  if decide (m ∈ items s) then s
  else {| target := target s; isTargetSet := isTargetSet s;
          items := items s ++ [m] |}.

(** Modelled from the spec: [SC.Set.remove], a no-op when the handler is
    absent. *)
Definition Set_remove (m : method) (s : SCSet) : SCSet :=
  {| target := target s; isTargetSet := isTargetSet s;
     items := filter (λ x, x ≠ m) (items s) |}.

(** Modelled from the spec: [SC.Set.clone], read so that [clone] does
    what the spec says of it ("an equivalent pair in a freshly allocated
    Target-Method Set"): the copy holds the same handlers and is again
    recognised as a Target-Method Set.  Neither the spec nor these files
    say that [SC.Set.clone] carries the mark [isTargetSet] over; [clone]
    itself re-attaches [target] only.  [Set_copy] is the other reading,
    and [clone_with] takes the method as a parameter. *)
Definition Set_clone (s : SCSet) : SCSet :=
  {| target := target s; isTargetSet := isTargetSet s; items := items s |}.


Definition set_target (t : value) (s : SCSet) : SCSet :=
  {| target := t; isTargetSet := isTargetSet s; items := items s |}.

Definition set_isTargetSet (b : bool) (s : SCSet) : SCSet :=
  {| target := target s; isTargetSet := b; items := items s |}.

(** A member: the array [[target, method]]. *)
Abbreviation member := (value * method)%type.

(** The heap: the [SC.Set] instances and the arrays of members. *)
Record heap := mkHeap {
  Sets : list SCSet;
  Arrays : list (list member);
}.

(** An observer set.  [sets] are its own properties keyed by a guid, each
    a reference to an [SC.Set]; [targets] and [_membersCacheIsValid] start
    from the values of the prototype; [_members] is undefined until
    [getMembers] creates the array.  A guid is taken never to be the name
    of one of the other properties or methods of the object. *)
Record ObserverSet := mkObserverSet {
  sets : gmap string loc;
  targets : Z;
  _membersCacheIsValid : bool;
  _members : option loc;
}.

Definition with_sets (f : gmap string loc → gmap string loc)
    (this : ObserverSet) : ObserverSet :=
  {| sets := f (sets this); targets := targets this;
     _membersCacheIsValid := _membersCacheIsValid this;
     _members := _members this |}.

Definition with_targets (n : Z) (this : ObserverSet) : ObserverSet :=
  {| sets := sets this; targets := n;
     _membersCacheIsValid := _membersCacheIsValid this;
     _members := _members this |}.

Definition with_membersCacheIsValid (b : bool) (this : ObserverSet)
  : ObserverSet :=
  {| sets := sets this; targets := targets this;
     _membersCacheIsValid := b; _members := _members this |}.

Definition with_members (a : loc) (this : ObserverSet) : ObserverSet :=
  {| sets := sets this; targets := targets this;
     _membersCacheIsValid := _membersCacheIsValid this;
     _members := Some a |}.

(** *** Computations on the heap

    [None] stands for a read or write through a reference that points
    nowhere. *)
Definition M (A : Type) : Type := heap → option (A * heap).

#[global] Instance M_ret : MRet M := λ A a h, Some (a, h).

#[global] Instance M_bind : MBind M := λ A B f m h,
  match m h with
  | Some (a, h') => f a h'
  | None => None
  end.

Definition fail {A} : M A := λ _, None.

Definition alloc_set (s : SCSet) : M loc :=
  λ h, Some (length (Sets h), {| Sets := Sets h ++ [s]; Arrays := Arrays h |}).

Definition read_set (l : loc) : M SCSet :=
  λ h, match Sets h !! l with
       | Some s => Some (s, h)
       | None => None
       end.

Definition modify_set (l : loc) (f : SCSet → SCSet) : M unit :=
  λ h, match Sets h !! l with
       | Some s => Some (tt, {| Sets := <[l := f s]> (Sets h);
                                Arrays := Arrays h |})
       | None => None
       end.

Definition alloc_array (a : list member) : M loc :=
  λ h, Some (length (Arrays h),
             {| Sets := Sets h; Arrays := Arrays h ++ [a] |}).

Definition modify_array (l : loc) (f : list member → list member) : M unit :=
  λ h, match Arrays h !! l with
       | Some a => Some (tt, {| Sets := Sets h;
                                Arrays := <[l := f a]> (Arrays h) |})
       | None => None
       end.

(** [for (x in l) body]. *)
Fixpoint for_each {A S} (body : S → A → M S) (l : list A) (st : S) : M S :=
  match l with
  | [] => mret st
  | x :: l' => st' ← body st x; for_each body l' st'
  end.

Section Methods.

(** [SC.guidFor], the identity allocator of the framework, is an ambient
    service: it is taken as given. *)
Variable guidFor : ref → string.

(** [(target) ? SC.guidFor(target) : "__this__"]. *)
Definition targetGuid (target : value) : string :=
  match target with
  | JSRef r => guidFor r
  | _ => "__this__"
  end.

(** [create]: a new object begotten from the prototype, without own
    properties. *)
Definition create : ObserverSet :=
  {| sets := ∅; targets := 0; _membersCacheIsValid := false;
     _members := None |}.

Definition add (this : ObserverSet) (target : value) (method : method)
  : M ObserverSet :=
  let targetGuid := targetGuid target in
  '(methods, this) ←
    match sets this !! targetGuid with
    | Some methods => mret (methods, this)
    | None =>
        methods ← alloc_set Set_create;
        modify_set methods (set_target target);;
        modify_set methods (set_isTargetSet true);;
        mret (methods,
             with_targets (targets this + 1)
               (with_sets (insert targetGuid methods) this))
    end;
  modify_set methods (Set_add method);;
  mret (with_membersCacheIsValid false this).

Definition remove (this : ObserverSet) (target : value) (method : method)
  : M (bool * ObserverSet) :=
  let targetGuid := targetGuid target in
  match sets this !! targetGuid with
  | None => mret (false, this)
  | Some methods =>
      modify_set methods (Set_remove method);;
      s ← read_set methods;
      this ←
        (if (Z.of_nat (length (items s)) <=? 0)%Z then
           modify_set methods (set_target JSNull);;
           modify_set methods (set_isTargetSet false);;
           mret (with_targets (targets this - 1)
                  (with_sets (delete targetGuid) this))
         else mret this);
      mret (true, with_membersCacheIsValid false this)
  end.

(** [while(--idx>=0) ret.push([target, value[idx]])]. *)
Fixpoint push_members (ret_ : loc) (target : value) (value : loc) (idx : nat)
  : M unit :=
  match idx with
  | O => mret tt
  | S idx' =>
      s ← read_set value;
      match items s !! idx' with
      | Some m =>
          modify_array ret_ (λ a, a ++ [(target, m)]);;
          push_members ret_ target value idx'
      | None => fail
      end
  end.

(** The body of the loop of [getMembers] over the own properties.  The own
    properties that are not sets ([targets], [_membersCacheIsValid],
    [_members]) have no [isTargetSet] and are passed over. *)
Definition getMembers_body (ret_ : loc) (_ : unit) (kv : string * loc)
  : M unit :=
  let value := kv.2 in
  s ← read_set value;
  if isTargetSet s then
    let idx := length (items s) in
    let target := target s in
    push_members ret_ target value idx
  else mret tt.

(** [getMembers] returns a reference to an array ([None] would be the
    [undefined] of a valid cache without an array).  [for (key in this)]
    visits the keys in the order of [map_to_list]. *)
Definition getMembers (this : ObserverSet) : M (option loc * ObserverSet) :=
  if _membersCacheIsValid this then mret (_members this, this)
  else
    '(ret_, this) ←
      match _members this with
      | None =>
          a ← alloc_array [];
          mret (a, with_members a this)
      | Some a =>
          modify_array a (λ _, []);;
          mret (a, this)
      end;
    for_each (getMembers_body ret_) (map_to_list (sets this)) tt;;
    mret (Some ret_, with_membersCacheIsValid true this).

Definition clone_body (ret_ : ObserverSet) (kv : string * loc)
  : M ObserverSet :=
  let '(key, oldSet) := kv in
  s ← read_set oldSet;
  if isTargetSet s then
    newSet ← alloc_set (Set_clone s);
    old ← read_set oldSet;
    modify_set newSet (set_target (target old));;
    mret (with_sets (insert key newSet) ret_)
  else mret ret_.

Definition clone (this : ObserverSet) : M ObserverSet :=
  let ret_ := create in
  ret_ ← for_each clone_body (map_to_list (sets this)) ret_;
  mret (with_membersCacheIsValid false (with_targets (targets this) ret_)).

(** [clone] with [oldSet.clone()] as a parameter: [SC.Set.clone] is not
    part of these files, and what it carries over decides what the clone
    of an observer set can report.  [clone] is [clone_with Set_clone]. *)
Definition clone_body_with (set_clone : SCSet → SCSet) (ret_ : ObserverSet)
    (kv : string * loc) : M ObserverSet :=
  let '(key, oldSet) := kv in
  s ← read_set oldSet;
  if isTargetSet s then
    newSet ← alloc_set (set_clone s);
    old ← read_set oldSet;
    modify_set newSet (set_target (target old));;
    mret (with_sets (insert key newSet) ret_)
  else mret ret_.

Definition clone_with (set_clone : SCSet → SCSet) (this : ObserverSet)
  : M ObserverSet :=
  let ret_ := create in
  ret_ ← for_each (clone_body_with set_clone) (map_to_list (sets this)) ret_;
  mret (with_membersCacheIsValid false (with_targets (targets this) ret_)).

(** The set [clone] stores for the set [s] of the receiver. *)
Definition cloned (set_clone : SCSet → SCSet) (s : SCSet) : SCSet :=
  set_target (target s) (set_clone s).

(** *** Sequences of calls

    The calls made on an observer set; [Clone] goes on with the clone. *)
Inductive call :=
  | Add (target : value) (method : method)
  | Remove (target : value) (method : method)
  | GetMembers
  | Clone.

Definition do_call (this : ObserverSet) (c : call) : M ObserverSet :=
  match c with
  | Add t m => add this t m
  | Remove t m => '(_, this') ← remove this t m; mret this'
  | GetMembers => '(_, this') ← getMembers this; mret this'
  | Clone => clone this
  end.

(** The contents of the array that [getMembers] returns, read right after
    the call. *)
Definition members (this : ObserverSet) : heap → option (list member) :=
  λ h, match getMembers this h with
       | Some ((Some a, _), h') => Arrays h' !! a
       | _ => None
       end.

(** *** The state of an observer set *)

(** The members one set contributes, in the order [getMembers] pushes
    them. *)
Definition set_members (s : SCSet) : list member :=
  (λ m, (target s, m)) <$> reverse (items s).

(** What the loop of [getMembers] collects when it walks the properties
    [kvs] over the sets [ss]. *)
Definition collect (ss : list SCSet) (kvs : list (string * loc))
  : list member :=
  kvs ≫= λ kv,
    match ss !! kv.2 with
    | Some s => if isTargetSet s then set_members s else []
    | None => []
    end.

Definition current_members (this : ObserverSet) (h : heap) : list member :=
  collect (Sets h) (map_to_list (sets this)).

(** The set stored under [key] holds the method [m]. *)
Definition holds (this : ObserverSet) (h : heap) (key : string) (m : method)
  : Prop :=
  ∃ l s, sets this !! key = Some l ∧ Sets h !! l = Some s ∧ m ∈ items s.

(** The pair [(o, m)] is in the mapping: some stored set has target [o]
    and holds [m]. *)
Definition in_mapping (this : ObserverSet) (h : heap) (om : member) : Prop :=
  ∃ key l s, sets this !! key = Some l ∧ Sets h !! l = Some s ∧
             target s = om.1 ∧ om.2 ∈ items s.

(** A stored set: marked, not empty, without duplicates, filed under the
    guid of its target. *)
Definition set_ok (h : heap) (key : string) (l : loc) : Prop :=
  ∃ s, Sets h !! l = Some s ∧ isTargetSet s = true ∧ items s ≠ [] ∧
       NoDup (items s) ∧ targetGuid (target s) = key.

(** The invariant of an observer set in a heap. *)
Record wf (this : ObserverSet) (h : heap) : Prop := mkWf {
  wf_sets : ∀ (key : string) (l : loc),
    sets this !! key = Some l → set_ok h key l;
  wf_inj : ∀ (k1 k2 : string) (l : loc),
    sets this !! k1 = Some l → sets this !! k2 = Some l → k1 = k2;
  wf_targets : targets this = Z.of_nat (size (sets this));
  wf_members : ∀ a : loc, _members this = Some a → a < length (Arrays h);
  wf_cache : _membersCacheIsValid this = true →
    ∃ a, _members this = Some a ∧
         Arrays h !! a = Some (current_members this h);
}.

(** The footprint of a call that takes [this] in [h] to [this'] in [h']:
    sets and arrays of the heap that [this] does not refer to are left
    alone, and what [this'] refers to is either what [this] referred to or
    newly allocated. *)
Record frame (this : ObserverSet) (h : heap) (this' : ObserverSet) (h' : heap)
  : Prop := mkFrame {
  frame_sets : ∀ l : loc, l < length (Sets h) →
    (∀ key, sets this !! key ≠ Some l) → Sets h' !! l = Sets h !! l;
  frame_arrays : ∀ a : loc, a < length (Arrays h) →
    _members this ≠ Some a → Arrays h' !! a = Arrays h !! a;
  frame_new_sets : ∀ (key : string) (l : loc), sets this' !! key = Some l →
    (∃ key', sets this !! key' = Some l) ∨ (length (Sets h) ≤ l)%nat;
  frame_new_array : ∀ a : loc, _members this' = Some a →
    _members this = Some a ∨ (length (Arrays h) ≤ a)%nat;
}.

(** The invariant of the loop of [clone], started on [this] in [h]: the
    properties [seen] so far are those of [ret_], each a new set with the
    contents of the set [this] has under the same key. *)
Definition clone_inv (this : ObserverSet) (h : heap) (seen : list string)
    (ret_ : ObserverSet) (hcur : heap) : Prop :=
  Arrays hcur = Arrays h ∧
  (∃ extra, Sets hcur = Sets h ++ extra) ∧
  _members ret_ = None ∧
  (∀ (key : string) (l' : loc), sets ret_ !! key = Some l' →
     (length (Sets h) ≤ l')%nat ∧
     ∃ l s, sets this !! key = Some l ∧ Sets h !! l = Some s ∧
            Sets hcur !! l' = Some s) ∧
  (∀ (k1 k2 : string) (l' : loc),
     sets ret_ !! k1 = Some l' → sets ret_ !! k2 = Some l' → k1 = k2) ∧
  (∀ key : string, is_Some (sets ret_ !! key) ↔ key ∈ seen).

(** The invariant of the loop of [clone_with], started on [this] in [h]:
    the properties [seen] so far are those of [ret_], each a new set, the
    clone of the set [this] has under the same key with the target
    re-attached. *)
Definition clone_with_inv (set_clone : SCSet → SCSet) (this : ObserverSet) (h : heap) (seen : list string)
    (ret_ : ObserverSet) (hcur : heap) : Prop :=
  Arrays hcur = Arrays h ∧
  (∃ extra, Sets hcur = Sets h ++ extra) ∧
  _members ret_ = None ∧
  (∀ (key : string) (l' : loc), sets ret_ !! key = Some l' →
     (length (Sets h) ≤ l')%nat ∧
     ∃ l s, sets this !! key = Some l ∧ Sets h !! l = Some s ∧
            Sets hcur !! l' = Some (cloned set_clone s)) ∧
  (∀ key : string, is_Some (sets ret_ !! key) ↔ key ∈ seen).

(** Two observer sets that share neither a set nor an array. *)
Definition separate (a b : ObserverSet) : Prop :=
  (∀ (k1 k2 : string) (l : loc),
      sets a !! k1 = Some l → sets b !! k2 ≠ Some l) ∧
  (∀ x : loc, _members a = Some x → _members b ≠ Some x).

(** The registrations a sequence of calls leaves behind, as pairs of a
    guid and a method: [add] enters a pair, [remove] strikes it. *)
Definition track (R : gset (string * method)) (c : call)
  : gset (string * method) :=
  match c with
  | Add t m => {[ (targetGuid t, m) ]} ∪ R
  | Remove t m => R ∖ {[ (targetGuid t, m) ]}
  | GetMembers => R
  | Clone => R
  end.

Definition registered (cs : list call) : gset (string * method) :=
  foldl track ∅ cs.

(** [R] lists exactly what the sets of [this] hold. *)
Definition abstracts (this : ObserverSet) (h : heap)
    (R : gset (string * method)) : Prop :=
  ∀ (key : string) (m : method), (key, m) ∈ R ↔ holds this h key m.

(** Calls on an observer set and on its clone, in any order. *)
Inductive side := Original | Copy.

Definition do_call2 (st : ObserverSet * ObserverSet) (sc : side * call)
  : M (ObserverSet * ObserverSet) :=
  match sc.1 with
  | Original => a ← do_call st.1 sc.2; mret (a, st.2)
  | Copy => b ← do_call st.2 sc.2; mret (st.1, b)
  end.

(** A sequence of calls on a new observer set. *)
Definition run (cs : list call) : M ObserverSet :=
  for_each do_call cs create.

End Methods.

Definition empty_heap : heap := {| Sets := []; Arrays := [] |}.

(** A guid allocator to run examples with. *)
Definition example_guidFor (r : ref) : string := "sc" +:+ pretty r.

End ObserverSet.

(** ** The other methods of [SC.String]

    Case conversion and trimming.  The model covers ASCII text: a string
    is a sequence of characters below 128, on which [toUpperCase],
    [toLowerCase] and the class [\s] are as defined here. *)
Module SCStringCase.

Definition is_ascii (c : ascii) : bool := (nat_of_ascii c <? 128)%nat.

(** The class [[a-z]]. *)
Definition is_lower (c : ascii) : bool :=
  let n := nat_of_ascii c in (97 <=? n)%nat && (n <=? 122)%nat.

(** The class [[A-Z]]. *)
Definition is_upper (c : ascii) : bool :=
  let n := nat_of_ascii c in (65 <=? n)%nat && (n <=? 90)%nat.

(** The class [\s]: the space and the control characters 9 to 13. *)
Definition is_space (c : ascii) : bool :=
  let n := nat_of_ascii c in
  (n =? 32)%nat || ((9 <=? n)%nat && (n <=? 13)%nat).

Definition char_toUpperCase (c : ascii) : ascii :=
  if is_lower c then ascii_of_nat (nat_of_ascii c - 32) else c.

Definition char_toLowerCase (c : ascii) : ascii :=
  if is_upper c then ascii_of_nat (nat_of_ascii c + 32) else c.

Fixpoint string_map (f : ascii → ascii) (s : string) : string :=
  match s with
  | EmptyString => EmptyString
  | String c s' => String (f c) (string_map f s')
  end.

Fixpoint string_forall (p : ascii → bool) (s : string) : bool :=
  match s with
  | EmptyString => true
  | String c s' => p c && string_forall p s'
  end.

Definition toUpperCase (s : string) : string := string_map char_toUpperCase s.
Definition toLowerCase (s : string) : string := string_map char_toLowerCase s.

(** The strings the model covers. *)
Definition ascii_text (s : string) : bool := string_forall is_ascii s.

(** [s.charAt(0)] and [s.slice(1)]. *)
Definition charAt0 (s : string) : string :=
  match s with
  | EmptyString => EmptyString
  | String c _ => String c EmptyString
  end.

Definition slice1 (s : string) : string :=
  match s with
  | EmptyString => EmptyString
  | String _ s' => s'
  end.

(** *** Regular expressions

    A regular expression is given by its attempt at one position: whether
    that position is the start of the input, and the text from there on;
    the answer is the length of the match and what replaces it. *)
Definition matcher : Type := bool → string → option (nat * string).

(** [String.prototype.replace] with a global regular expression whose
    matches are never empty: the text is scanned from left to right, each
    match is replaced and scanning resumes behind it.  [skip] counts the
    characters of the current match still to be passed over. *)
Fixpoint replace_global (m : matcher) (s : string) (skip : nat)
    (at_start : bool) : string :=
  match s with
  | EmptyString => EmptyString
  | String c s' =>
      match skip with
      | S k => replace_global m s' k false
      | O =>
          match m at_start s with
          | Some (len, out) => out +:+ replace_global m s' (pred len) false
          | None => String c (replace_global m s' O false)
          end
      end
  end.

Definition replace (m : matcher) (s : string) : string :=
  replace_global m s O true.

(** The class [[\s|\-|\_|\n]] of [SC.STRING_TITLEIZE_REGEXP]: white space,
    the bar, the dash and the underscore. *)
Definition is_separator (c : ascii) : bool :=
  is_space c || Ascii.eqb c "|" || Ascii.eqb c "-" || Ascii.eqb c "_".

(** One attempt of [SC.STRING_TITLEIZE_REGEXP],
    [/([\s|\-|\_|\n])([^\s|\-|\_|\n]?)/]: the two groups.  The second
    takes the next character unless that is a separator too, and is empty
    then. *)
Definition STRING_TITLEIZE_REGEXP (s : string) : option (string * string) :=
  match s with
  | String sep rest =>
      if is_separator sep then
        Some (String sep EmptyString,
              match rest with
              | String ch _ =>
                  if is_separator ch then EmptyString
                  else String ch EmptyString
              | EmptyString => EmptyString
              end)
      else None
  | EmptyString => None
  end.

(** [replace(SC.STRING_TITLEIZE_REGEXP, fn)], where [fn] takes the match
    and the two groups. *)
Definition titleize_matcher (fn : string → string → string → string)
  : matcher :=
  λ _ s,
    match STRING_TITLEIZE_REGEXP s with
    | Some (sep, character) =>
        let str := sep +:+ character in
        Some (String.length str, fn str sep character)
    | None => None
    end.

(** [(character) ? a : b]: a string is truthy unless it is empty. *)
Definition if_truthy {A} (character : string) (a b : A) : A :=
  match character with
  | EmptyString => b
  | _ => a
  end.

(** [/([a-z])([A-Z])/g] replaced by ['$1_$2']. *)
Definition hump_matcher : matcher :=
  λ _ s,
    match s with
    | String a (String b _) =>
        if is_lower a && is_upper b
        then Some (2%nat, String a (String "_" (String b EmptyString)))
        else None
    | _ => None
    end.

(** A class of single characters, each match replaced by [out]. *)
Definition class_matcher (class : ascii → bool) (out : string) : matcher :=
  λ _ s,
    match s with
    | String c _ => if class c then Some (1%nat, out) else None
    | EmptyString => None
    end.

(** The number of white space characters [s] starts with. *)
Fixpoint leading_spaces (s : string) : nat :=
  match s with
  | String c s' => if is_space c then S (leading_spaces s') else O
  | EmptyString => O
  end.

(** [/^\s+|\s+$/g] replaced by the empty string: white space at the start
    of the input, or else white space that runs to the end of it. *)
Definition trim_matcher : matcher :=
  λ at_start s,
    let n := leading_spaces s in
    if (n =? 0)%nat then None
    else if at_start then Some (n, EmptyString)
    else if (n =? String.length s)%nat then Some (n, EmptyString)
    else None.

(** *** The methods *)

Definition capitalize (this : string) : string :=
  toUpperCase (charAt0 this) +:+ slice1 this.

Definition capitalizeEach (this : string) : string :=
  capitalize
    (replace
       (titleize_matcher (λ str sep character,
          if_truthy character (sep +:+ toUpperCase character) sep))
       this).

Definition titleize (this : string) : string :=
  let ret_ := replace hump_matcher this in
  capitalize
    (replace
       (titleize_matcher (λ str separater character,
          if_truthy character (" " +:+ toUpperCase character) " "))
       ret_).

Definition camelize (this : string) : string :=
  let ret_ :=
    replace
      (titleize_matcher (λ str separater character,
         if_truthy character (toUpperCase character) EmptyString))
      this in
  let first := charAt0 ret_ in
  let lower := toLowerCase first in
  if decide (first ≠ lower) then lower +:+ slice1 ret_ else ret_.

Definition classify (this : string) : string :=
  let ret_ :=
    replace
      (titleize_matcher (λ str separater character,
         if_truthy character (toUpperCase character) EmptyString))
      this in
  let first := charAt0 ret_ in
  let upper := toUpperCase first in
  if decide (first ≠ upper) then upper +:+ slice1 ret_ else ret_.

Definition decamelize (this : string) : string :=
  toLowerCase (replace hump_matcher this).

Definition is_space_or_underscore (c : ascii) : bool :=
  Ascii.eqb c " " || Ascii.eqb c "_".

Definition is_dash_or_underscore (c : ascii) : bool :=
  Ascii.eqb c "-" || Ascii.eqb c "_".

Definition dasherize (this : string) : string :=
  replace (class_matcher is_space_or_underscore "-") (decamelize this).

Definition humanize (this : string) : string :=
  replace (class_matcher is_dash_or_underscore " ") (decamelize this).

Definition trim (this : string) : string := replace trim_matcher this.

(** [strip] is another name of [trim]. *)
Definition strip (this : string) : string := trim this.

(** [this.split(' ')]: the pieces between the spaces; an empty string has
    one piece, the empty one. *)
Fixpoint w (this : string) : list string :=
  match this with
  | EmptyString => [EmptyString]
  | String c s' =>
      if Ascii.eqb c " " then EmptyString :: w s'
      else match w s' with
           | p :: ps => String c p :: ps
           | [] => [String c EmptyString]
           end
  end.

(** *** What the properties are stated with *)

(** [pieces.join(sep)]. *)
Fixpoint join (sep : string) (pieces : list string) : string :=
  match pieces with
  | [] => EmptyString
  | [p] => p
  | p :: ps => p +:+ sep +:+ join sep ps
  end.

(** The replacement that [camelize] and [classify] share. *)
Definition camel_matcher : matcher :=
  titleize_matcher (λ str separater character,
    if_truthy character (toUpperCase character) EmptyString).

(** [f] on the first character. *)
Definition map_first (f : ascii → ascii) (s : string) : string :=
  match s with
  | EmptyString => EmptyString
  | String c s' => String (f c) s'
  end.

(** No character of the class [p]. *)
Definition free_of (p : ascii → bool) (s : string) : bool :=
  string_forall (λ c, negb (p c)) s.

(** What [dasherize] and [humanize] do to one character. *)
Definition to_dash (c : ascii) : ascii :=
  if is_space_or_underscore c then "-"%char else c.

Definition to_space (c : ascii) : ascii :=
  if is_dash_or_underscore c then " "%char else c.

Definition starts_with (p : ascii → bool) (s : string) : bool :=
  match s with
  | String c _ => p c
  | EmptyString => false
  end.

Fixpoint ends_with (p : ascii → bool) (s : string) : bool :=
  match s with
  | EmptyString => false
  | String c EmptyString => p c
  | String _ s' => ends_with p s'
  end.

(** No white space at either end. *)
Definition trimmed (s : string) : bool :=
  negb (starts_with is_space s) && negb (ends_with is_space s).

Fixpoint count_char (p : ascii → bool) (s : string) : nat :=
  match s with
  | EmptyString => O
  | String c s' => (if p c then 1 else 0) + count_char p s'
  end.

(** The space, at which [w] cuts. *)
Definition is_the_space (c : ascii) : bool := Ascii.eqb c " ".

(** No lower-case letter at the start of a word: [after_separator] tells
    whether the position is the start of the string or behind a separator. *)
Fixpoint words_capitalized_from (after_separator : bool) (s : string) : bool :=
  match s with
  | EmptyString => true
  | String c s' =>
      negb (after_separator && is_lower c)
      && words_capitalized_from (is_separator c) s'
  end.

Definition words_capitalized (s : string) : bool :=
  words_capitalized_from true s.

(** Every separator is a space. *)
Definition spaced (s : string) : bool :=
  string_forall (λ c, negb (is_separator c) || Ascii.eqb c " ") s.

(** A word: lower-case letters, at least one. *)
Definition word (s : string) : bool :=
  string_forall is_lower s && negb (String.length s =? 0)%nat.

(** A word with its first letter in upper case. *)
Definition hump (s : string) : string := map_first char_toUpperCase s.

(** The words that follow the first one, in camel case: each with its
    first letter in upper case, one behind the other. *)
Fixpoint humps (ws : list string) : string :=
  match ws with
  | [] => EmptyString
  | x :: ws' => hump x +:+ humps ws'
  end.

(** The words that follow the first one, in snake case: each behind an
    underscore, and passed through [f]. *)
Fixpoint tails (f : string → string) (ws : list string) : string :=
  match ws with
  | [] => EmptyString
  | x :: ws' => String "_" (f x) +:+ tails f ws'
  end.

(** Words, of which every one but the last has two letters or more. *)
Fixpoint long_words (ws : list string) : bool :=
  match ws with
  | [] => true
  | [x] => word x
  | x :: ws' => word x && (2 <=? String.length x)%nat && long_words ws'
  end.

End SCStringCase.

(** * Properties of [fmt] *)
Module FmtFacts.
Import SCString.

Lemma length_append (s1 s2 : string) :
  String.length (s1 +:+ s2) = (String.length s1 + String.length s2)%nat.
Proof. induction s1 as [|c s1 IH]; simpl; [done|by rewrite IH]. Qed.

Lemma append_empty_r (s : string) : s +:+ EmptyString = s.
Proof.
  induction s as [|c s IH]; [done|].
  change (String c (s +:+ EmptyString) = String c s). by rewrite IH.
Qed.

Lemma span_digits_stop (s : string) :
  (match s with String c _ => is_digit c = false | EmptyString => True end) →
  span_digits s = (EmptyString, s).
Proof. destruct s as [|c s]; simpl; [done|]. by intros ->. Qed.

Lemma span_digits_app (ds rest : string) :
  all_digits ds = true →
  (match rest with String c _ => is_digit c = false | EmptyString => True end) →
  span_digits (ds +:+ rest) = (ds, rest).
Proof.
  intros Hds Hrest. induction ds as [|c ds IH]; simpl in *.
  - by apply span_digits_stop.
  - apply andb_prop in Hds as [-> Hds]. by rewrite IH.
Qed.

Lemma replace_loop_skip (args : list arg) (ds rest : string) (idx : Z) :
  replace_loop args (ds +:+ rest) (String.length ds) idx
  = replace_loop args rest O idx.
Proof. induction ds as [|c ds IH]; simpl; [by destruct rest|done]. Qed.

Lemma template_no_digit (ps : list piece) :
  starts_with_digit ps = false →
  match template ps with
  | String c _ => is_digit c = false
  | EmptyString => True
  end.
Proof. destruct ps as [|[c| |ds] ps]; simpl; done. Qed.

Lemma template_no_at (ps : list piece) :
  starts_with_at ps = false →
  match template ps with
  | String c _ => c ≠ "@"%char
  | EmptyString => True
  end.
Proof.
  destruct ps as [|[c| |ds] ps]; simpl; try done.
  by case_decide.
Qed.

Lemma match_token_text (c : ascii) (ps : list piece) :
  (if decide (c = "%"%char) then negb (starts_with_at ps) else true) = true →
  match_token (String c (template ps)) = None.
Proof.
  intros H. case_decide as Hc.
  - subst c. apply negb_true_iff, template_no_at in H.
    simpl. destruct (template ps) as [|c' s']; [done|].
    destruct (decide (c' = "@"%char)) as [->|Hne]; [done|].
    destruct c' as [[] [] [] [] [] [] [] []]; try done.
  - simpl. destruct c as [[] [] [] [] [] [] [] []]; try done.
Qed.

Lemma rendering_agrees (args : list arg) (n : Z) :
  match arguments_get args (n - 1) with
  | ArgNull => "(null)"
  | ArgUndefined => ""
  | ArgValue str => str
  end = render_arg (nth_argument args n).
Proof.
  unfold arguments_get, nth_argument.
  destruct (Z.ltb_spec (n - 1) 0), (Z.leb_spec n 0); try lia; [done|].
  by destruct (args !! Z.to_nat (n - 1)) as [[]|].
Qed.

Lemma replace_loop_template (args : list arg) (ps : list piece) (idx : Z) :
  well_delimited ps = true →
  replace_loop args (template ps) O idx
  = (render args ps (idx + 1), (idx + count_next ps)%Z).
Proof.
  revert idx. induction ps as [|p ps IH]; intros idx Hwd.
  - simpl. by rewrite Z.add_0_r.
  - destruct p as [c| |ds]; simpl in Hwd.
    + apply andb_prop in Hwd as [Hc Hwd].
      change (template (Text c :: ps)) with (String c (template ps)).
      cbn [replace_loop]. rewrite (match_token_text _ _ Hc), IH by done.
      done.
    + apply andb_prop in Hwd as [Hd Hwd].
      apply negb_true_iff, template_no_digit in Hd.
      change (template (Next :: ps))
        with (String "%" (String "@" (template ps))).
      cbn [replace_loop match_token].
      rewrite (span_digits_stop _ Hd).
      cbn [fmt_callback capture_truthy Init.Nat.pred].
      rewrite IH by done. cbn [render count_next].
      replace idx with (idx + 1 - 1)%Z at 1 by lia.
      rewrite rendering_agrees. f_equal. lia.
    + apply andb_prop in Hwd as [Hwd Hwd4].
      apply andb_prop in Hwd as [Hwd Hd].
      apply andb_prop in Hwd as [Hne Hds].
      apply negb_true_iff, template_no_digit in Hd.
      destruct ds as [|d ds]; [done|].
      change (template (Numbered (String d ds) :: ps))
        with (String "%" (String "@" (String d ds +:+ template ps))).
      cbn [replace_loop match_token].
      rewrite (span_digits_app _ _ Hds Hd).
      cbn [fmt_callback capture_truthy].
      rewrite rendering_agrees.
      change (Init.Nat.pred (2 + String.length (String d ds)))
        with (S (String.length (String d ds))).
      cbn [replace_loop].
      rewrite (replace_loop_skip args (String d ds) (template ps) idx).
      rewrite IH by done. done.
Qed.

(** Every string is the template of pieces that spell it
    unambiguously. *)

Lemma span_digits_spec (s ds rest : string) :
  span_digits s = (ds, rest) →
  s = ds +:+ rest ∧ all_digits ds = true ∧
  match rest with String c _ => is_digit c = false | EmptyString => True end.
Proof.
  revert ds rest. induction s as [|c s IH]; intros ds rest; simpl.
  - by intros [= <- <-].
  - destruct (is_digit c) eqn:Hc.
    + destruct (span_digits s) as [ds' rest'].
      destruct (IH ds' rest' eq_refl) as (-> & Hds & Hrest).
      intros [= <- <-]. simpl. by rewrite Hc.
    + by intros [= <- <-].
Qed.

Lemma pieces_skip (ds rest : string) :
  pieces (ds +:+ rest) (String.length ds) = pieces rest O.
Proof. induction ds as [|c ds IH]; simpl; [by destruct rest|done]. Qed.

Lemma pieces_head (s : string) :
  (starts_with_digit (pieces s O) = true →
   match s with String c _ => is_digit c = true | EmptyString => False end) ∧
  (starts_with_at (pieces s O) = true →
   match s with String c _ => c = "@"%char | EmptyString => False end).
Proof.
  destruct s as [|c s]; [done|]. cbn [pieces].
  destruct (match_token (String c s)) as [[[ds|] len]|]; try done.
  simpl. split; [done|]. by case_decide.
Qed.

Lemma pieces_template_bounded (n : nat) (s : string) :
  (String.length s ≤ n)%nat →
  template (pieces s O) = s ∧ well_delimited (pieces s O) = true.
Proof.
  revert s. induction n as [|n IH]; intros s Hlen.
  { by destruct s; [|simpl in Hlen; lia]. }
  destruct s as [|c s]; [done|]. simpl in Hlen. cbn [pieces].
  destruct (match_token (String c s)) as [[cap len]|] eqn:Hm.
  - unfold match_token in Hm.
    destruct c as [[] [] [] [] [] [] [] []]; try done.
    destruct s as [|[[] [] [] [] [] [] [] []] rest]; try done.
    destruct (span_digits rest) as [ds rest'] eqn:Hspan.
    destruct (span_digits_spec _ _ _ Hspan) as (-> & Hds & Hrest).
    assert (String.length rest' ≤ n)%nat as Hlen'.
    { simpl in Hlen. rewrite length_append in Hlen. lia. }
    destruct (IH rest' Hlen') as [Ht Hwd].
    assert (starts_with_digit (pieces rest' O) = false) as Hnd.
    { destruct (starts_with_digit (pieces rest' O)) eqn:Hd; [|done].
      apply pieces_head in Hd. destruct rest'; [done|congruence]. }
    destruct ds as [|d ds].
    + injection Hm as <- <-. change (EmptyString +:+ rest') with rest'.
      simpl. by rewrite Ht, Hnd, Hwd.
    + injection Hm as <- <-.
      change (pieces (String "@" (String d ds +:+ rest'))
                (Init.Nat.pred (S (S (S (String.length ds))))))
        with (pieces (String "@" (String d ds) +:+ rest')
                (String.length (String "@" (String d ds)))).
      rewrite (pieces_skip (String "@" (String d ds)) rest').
      cbn [template piece_text well_delimited]. rewrite Ht, Hnd, Hwd.
      split; [done|]. rewrite Hds. by rewrite decide_False.
  - destruct (IH s) as [Ht Hwd]; [lia|].
    cbn [template piece_text well_delimited]. rewrite Ht, Hwd.
    split; [done|]. case_decide as Hc; [|done]. subst c.
    destruct (starts_with_at (pieces s O)) eqn:Hat; [|done].
    apply pieces_head in Hat. destruct s as [|c' s]; [done|]. subst c'.
    simpl in Hm. by destruct (span_digits s) as [[|??] ?].
Qed.

Lemma pieces_template (s : string) :
  template (pieces s O) = s ∧ well_delimited (pieces s O) = true.
Proof. by apply (pieces_template_bounded (String.length s)). Qed.

(** C9.  Whatever the template, it splits into literal characters and
    tokens, and for every such reading [fmt] copies the literal
    characters, replaces each [%@] by the next argument in order, counted
    from the first, and each [%@N] by the N-th argument; a token whose
    argument is missing gives the empty string and one whose argument is
    [null] gives [(null)]. *)
Theorem fmt_substitutes_arguments (args : list arg) :
  (∀ s : string, ∃ ps, template ps = s ∧ well_delimited ps = true) ∧
  (∀ ps : list piece,
     well_delimited ps = true → fmt (template ps) args = render args ps 1) ∧
  render_arg None = "" ∧ render_arg (Some ArgNull) = "(null)".
Proof.
  split_and!; [| |done..].
  - intros s. exists (pieces s O). apply pieces_template.
  - intros ps Hwd. unfold fmt. by rewrite replace_loop_template.
Qed.

(** C9 at a template that mixes both kinds of token, a missing argument and
    a [null]. *)
Lemma fmt_substitutes_arguments_witness :
  fmt "%@, %@3 and %@1: %@%@ (100%)"
    [ArgValue "a"; ArgNull; ArgValue "c"]
  = "a, c and a: (null)c (100%)".
Proof.
  destruct (fmt_substitutes_arguments
              [ArgValue "a"; ArgNull; ArgValue "c"]) as (_ & Hfmt & _).
  apply (Hfmt (pieces "%@, %@3 and %@1: %@%@ (100%)" O)).
  reflexivity.
Defined.

(** C10.  The counter behind [%@] moves only at a [%@]: the callback
    leaves it alone for a numbered token and adds one otherwise, so when
    [fmt] returns it has counted the [%@] tokens and nothing else, and
    ["%@2 %@"] with two arguments gives the second and then the first. *)
Theorem fmt_counter_counts_unnumbered_tokens (args : list arg) :
  (∀ (idx : Z) (d : ascii) (ds : string),
     snd (fmt_callback args idx (Some (String d ds))) = idx) ∧
  (∀ idx : Z, snd (fmt_callback args idx None) = (idx + 1)%Z) ∧
  (∀ ps : list piece,
     well_delimited ps = true →
     fmt_final_idx (template ps) args = count_next ps) ∧
  (∀ a b : string,
     fmt "%@2 %@" [ArgValue a; ArgValue b] = b +:+ " " +:+ a).
Proof.
  split_and!; try done.
  - intros ps Hwd. unfold fmt_final_idx. by rewrite replace_loop_template.
  - intros a b.
    assert (fmt "%@2 %@" [ArgValue a; ArgValue b]
            = b +:+ " " +:+ (a +:+ EmptyString)) as Hfmt
      by (vm_compute; reflexivity).
    by rewrite append_empty_r in Hfmt.
Qed.

(** C10 at a template with two numbered and two plain tokens. *)
Lemma fmt_counter_counts_unnumbered_tokens_witness :
  fmt_final_idx "%@2 and %@, %@1 and %@" [ArgValue "a"; ArgValue "b"] = 2%Z.
Proof.
  destruct (fmt_counter_counts_unnumbered_tokens
              [ArgValue "a"; ArgValue "b"]) as (_ & _ & Hidx & _).
  apply (Hidx (pieces "%@2 and %@, %@1 and %@" O)).
  reflexivity.
Defined.

End FmtFacts.

(** * Properties of the observer set *)
Module ObserverSetFacts.
Import ObserverSet.

Ltac unfold_M :=
  unfold mbind, M_bind, mret, M_ret, fail, alloc_set, read_set, modify_set,
    alloc_array, modify_array in *.

Section Facts.

Variable guidFor : ref → string.

Local Abbreviation targetGuid := (ObserverSet.targetGuid guidFor).
Local Abbreviation add := (ObserverSet.add guidFor).
Local Abbreviation remove := (ObserverSet.remove guidFor).
Local Abbreviation do_call := (ObserverSet.do_call guidFor).
Local Abbreviation wf := (ObserverSet.wf guidFor).
Local Abbreviation set_ok := (ObserverSet.set_ok guidFor).
Local Abbreviation run := (ObserverSet.run guidFor).
Local Abbreviation track := (ObserverSet.track guidFor).
Local Abbreviation registered := (ObserverSet.registered guidFor).

(** ** What each method computes *)

Lemma add_known this t m h l s :
  sets this !! targetGuid t = Some l →
  Sets h !! l = Some s →
  add this t m h
  = Some (with_membersCacheIsValid false this,
          {| Sets := <[l := Set_add m s]> (Sets h); Arrays := Arrays h |}).
Proof.
  intros Hl Hs. unfold add. rewrite Hl. unfold_M. simpl. by rewrite Hs.
Qed.

Lemma add_new this t m h :
  sets this !! targetGuid t = None →
  add this t m h
  = Some (with_membersCacheIsValid false
            (with_targets (targets this + 1)
               (with_sets (insert (targetGuid t) (length (Sets h))) this)),
          {| Sets := Sets h ++ [{| target := t; isTargetSet := true;
                                   items := [m] |}];
             Arrays := Arrays h |}).
Proof.
  intros Hl. unfold add. rewrite Hl. unfold_M. simpl.
  rewrite list_lookup_middle by done. simpl.
  rewrite insert_app_r_alt, Nat.sub_diag by done. simpl.
  rewrite list_lookup_middle by done. simpl.
  rewrite insert_app_r_alt, Nat.sub_diag by done. simpl.
  rewrite list_lookup_middle by done. simpl.
  rewrite insert_app_r_alt, Nat.sub_diag by done. simpl.
  done.
Qed.

Lemma remove_unknown this t m h :
  sets this !! targetGuid t = None →
  remove this t m h = Some ((false, this), h).
Proof. intros Hl. unfold remove. by rewrite Hl. Qed.

Lemma remove_last this t m h l s :
  sets this !! targetGuid t = Some l →
  Sets h !! l = Some s →
  filter (λ x, x ≠ m) (items s) = [] →
  remove this t m h
  = Some ((true,
           with_membersCacheIsValid false
             (with_targets (targets this - 1)
                (with_sets (delete (targetGuid t)) this))),
          {| Sets := <[l := {| target := JSNull; isTargetSet := false;
                               items := [] |}]> (Sets h);
             Arrays := Arrays h |}).
Proof.
  intros Hl Hs Hf. unfold remove. rewrite Hl. unfold_M. simpl.
  assert (l < length (Sets h)) by by eapply lookup_lt_Some.
  rewrite Hs. simpl. rewrite list_lookup_insert_eq by done.
  unfold Set_remove. simpl. rewrite Hf. simpl.
  rewrite list_lookup_insert_eq by done. simpl.
  rewrite list_lookup_insert_eq by (by rewrite length_insert). simpl.
  by rewrite !list_insert_insert_eq.
Qed.

Lemma remove_some this t m h l s :
  sets this !! targetGuid t = Some l →
  Sets h !! l = Some s →
  filter (λ x, x ≠ m) (items s) ≠ [] →
  remove this t m h
  = Some ((true, with_membersCacheIsValid false this),
          {| Sets := <[l := Set_remove m s]> (Sets h);
             Arrays := Arrays h |}).
Proof.
  intros Hl Hs Hf. unfold remove. rewrite Hl. unfold_M. simpl.
  assert (l < length (Sets h)) by by eapply lookup_lt_Some.
  rewrite Hs. simpl. rewrite list_lookup_insert_eq by done.
  destruct (filter _ (items s)) eqn:E; [done|].
  unfold Set_remove. simpl. rewrite E. simpl. done.
Qed.

Lemma push_members_eq r t l idx h s (acc : list member) :
  Sets h !! l = Some s →
  (idx ≤ length (items s))%nat →
  Arrays h !! r = Some acc →
  push_members r t l idx h
  = Some (tt, {| Sets := Sets h;
                 Arrays := <[r := acc ++ ((λ m, (t, m) : member)
                                   <$> reverse (take idx (items s)))]>
                             (Arrays h) |}).
Proof.
  intros Hs. revert h acc Hs.
  induction idx as [|idx IH]; intros h acc Hs Hle Hr.
  - simpl. rewrite app_nil_r, list_insert_id by done. by destruct h.
  - simpl. unfold_M. rewrite Hs.
    destruct (lookup_lt_is_Some_2 (items s) idx) as [m Hm]; [lia|].
    rewrite Hm, Hr.
    assert (r < length (Arrays h)) by by eapply lookup_lt_Some.
    erewrite IH; simpl; [|done|lia|by apply list_lookup_insert_eq].
    rewrite list_insert_insert_eq, (take_S_r _ _ _ Hm), reverse_app.
    simpl. by rewrite <- app_assoc.
Qed.

Lemma for_each_getMembers_body r kvs h (acc : list member) :
  Forall (λ kv : string * loc, is_Some (Sets h !! kv.2)) kvs →
  Arrays h !! r = Some acc →
  for_each (getMembers_body r) kvs tt h
  = Some (tt, {| Sets := Sets h;
                 Arrays := <[r := acc ++ collect (Sets h) kvs]>
                             (Arrays h) |}).
Proof.
  intros Hall. revert h acc Hall.
  induction kvs as [|[key l] kvs IH]; intros h acc Hall Hr.
  - simpl. unfold_M. rewrite app_nil_r, list_insert_id by done.
    by destruct h.
  - apply Forall_cons in Hall as [[s Hs] Hall]. simpl in Hs.
    assert (r < length (Arrays h)) by by eapply lookup_lt_Some.
    cbn [for_each]. unfold mbind at 1, M_bind at 1.
    unfold getMembers_body at 1. unfold mbind at 1, M_bind at 1.
    unfold read_set at 1. simpl. rewrite Hs.
    destruct (isTargetSet s).
    + erewrite push_members_eq by (done || lia).
      erewrite IH; simpl; [|done|by apply list_lookup_insert_eq].
      rewrite list_insert_insert_eq, firstn_all. unfold set_members.
      by rewrite <- app_assoc.
    + unfold mret, M_ret. by erewrite IH.
Qed.

Lemma getMembers_cached this h :
  _membersCacheIsValid this = true →
  getMembers this h = Some ((_members this, this), h).
Proof. intros Hv. unfold getMembers. by rewrite Hv. Qed.

Lemma getMembers_again this h a :
  _membersCacheIsValid this = false →
  _members this = Some a →
  a < length (Arrays h) →
  (∀ (key : string) (l : loc),
     sets this !! key = Some l → is_Some (Sets h !! l)) →
  getMembers this h
  = Some ((Some a, with_membersCacheIsValid true this),
          {| Sets := Sets h;
             Arrays := <[a := current_members this h]> (Arrays h) |}).
Proof.
  intros Hv Ha Hlt Hsets. unfold getMembers. rewrite Hv, Ha.
  destruct (lookup_lt_is_Some_2 (Arrays h) a Hlt) as [old Hold].
  unfold mbind at 1, M_bind at 1. unfold mbind at 1, M_bind at 1.
  unfold modify_array at 1. rewrite Hold. unfold mret at 1, M_ret at 1.
  unfold mbind at 1, M_bind at 1.
  erewrite (for_each_getMembers_body a _ _ []); simpl.
  - by rewrite list_insert_insert_eq.
  - apply Forall_forall. intros [key l] Hkv%elem_of_map_to_list. eauto.
  - by apply list_lookup_insert_eq.
Qed.

Lemma getMembers_first this h :
  _membersCacheIsValid this = false →
  _members this = None →
  (∀ (key : string) (l : loc),
     sets this !! key = Some l → is_Some (Sets h !! l)) →
  getMembers this h
  = Some ((Some (length (Arrays h)),
           with_membersCacheIsValid true
             (with_members (length (Arrays h)) this)),
          {| Sets := Sets h;
             Arrays := Arrays h ++ [current_members this h] |}).
Proof.
  intros Hv Ha Hsets. unfold getMembers. rewrite Hv, Ha.
  unfold mbind at 1, M_bind at 1. unfold mbind at 1, M_bind at 1.
  unfold alloc_array at 1. unfold mret at 1, M_ret at 1.
  unfold mbind at 1, M_bind at 1.
  erewrite (for_each_getMembers_body _ _ _ []); simpl.
  - by rewrite insert_app_r_alt, Nat.sub_diag.
  - apply Forall_forall. intros [key l] Hkv%elem_of_map_to_list. eauto.
  - by apply list_lookup_middle.
Qed.

(** ** Sets and the members collected from them *)

Lemma elem_of_Set_add x m s :
  x ∈ items (Set_add m s) ↔ x = m ∨ x ∈ items s.
Proof.
  unfold Set_add. case_decide; simpl.
  - split; [by right|by intros [->|]].
  - rewrite elem_of_app, list_elem_of_singleton. tauto.
Qed.

Lemma NoDup_Set_add m s : NoDup (items s) → NoDup (items (Set_add m s)).
Proof.
  intros Hnd. unfold Set_add. case_decide; simpl; [done|].
  apply NoDup_app. split_and!; [done| |apply NoDup_singleton].
  intros x Hx ->%list_elem_of_singleton. done.
Qed.

Lemma Set_add_not_empty m s : items (Set_add m s) ≠ [].
Proof.
  intros Hnil. assert (m ∈ items (Set_add m s)) as Hin
    by (apply elem_of_Set_add; by left).
  rewrite Hnil in Hin. by apply not_elem_of_nil in Hin.
Qed.

Lemma target_Set_add m s : target (Set_add m s) = target s.
Proof. unfold Set_add. by case_decide. Qed.

Lemma isTargetSet_Set_add m s : isTargetSet (Set_add m s) = isTargetSet s.
Proof. unfold Set_add. by case_decide. Qed.

Lemma Set_add_present m s : m ∈ items s → Set_add m s = s.
Proof. intros Hin. unfold Set_add. by rewrite decide_True. Qed.

Lemma elem_of_Set_remove x m s :
  x ∈ items (Set_remove m s) ↔ x ≠ m ∧ x ∈ items s.
Proof. unfold Set_remove; simpl. by rewrite list_elem_of_filter. Qed.

Lemma filter_absent (m : method) (l : list method) :
  m ∉ l → filter (λ x, x ≠ m) l = l.
Proof.
  induction l as [|x l IH]; [done|].
  intros [Hne Hl]%not_elem_of_cons.
  rewrite filter_cons, decide_True by done. by rewrite IH.
Qed.

Lemma Set_remove_absent m s : m ∉ items s → Set_remove m s = s.
Proof.
  intros Hin. unfold Set_remove. rewrite filter_absent by done.
  by destruct s.
Qed.

Lemma Set_remove_add m s : m ∉ items s → Set_remove m (Set_add m s) = s.
Proof.
  intros Hin. unfold Set_add. rewrite decide_False by done.
  unfold Set_remove. simpl.
  rewrite filter_app, filter_absent by done.
  rewrite filter_cons, decide_False, filter_nil by (intros Hne; by apply Hne).
  rewrite app_nil_r. by destruct s.
Qed.

Lemma collect_ext (ss ss' : list SCSet) (kvs : list (string * loc)) :
  (∀ kv, kv ∈ kvs → ss' !! kv.2 = ss !! kv.2) →
  collect ss' kvs = collect ss kvs.
Proof.
  induction kvs as [|kv kvs IH]; intros Hext; [done|].
  unfold collect in *. cbn [mbind list_bind].
  rewrite Hext by left. f_equal. apply IH.
  intros kv' Hkv'. apply Hext. by right.
Qed.

Lemma current_members_ext this h h' :
  (∀ (key : string) (l : loc),
     sets this !! key = Some l → Sets h' !! l = Sets h !! l) →
  current_members this h' = current_members this h.
Proof.
  intros Hext. apply collect_ext.
  intros [key l] Hkv%elem_of_map_to_list. eauto.
Qed.

Lemma elem_of_current_members this h o m :
  (o, m) ∈ current_members this h ↔
  ∃ key l s, sets this !! key = Some l ∧ Sets h !! l = Some s ∧
             isTargetSet s = true ∧ target s = o ∧ m ∈ items s.
Proof.
  unfold current_members, collect. rewrite list_elem_of_bind. split.
  - intros [[key l] [Hin Hkv%elem_of_map_to_list]]. simpl in Hin.
    destruct (Sets h !! l) as [s|] eqn:Hs; [|by apply not_elem_of_nil in Hin].
    destruct (isTargetSet s) eqn:Ht; [|by apply not_elem_of_nil in Hin].
    apply list_elem_of_fmap in Hin as [m' [[= -> ->] Hm]].
    rewrite elem_of_reverse in Hm. by exists key, l, s.
  - intros (key & l & s & Hl & Hs & Ht & Ho & Hm).
    exists (key, l). split; [|by apply elem_of_map_to_list].
    simpl. rewrite Hs, Ht. apply list_elem_of_fmap.
    exists m. split; [by rewrite Ho|by apply elem_of_reverse].
Qed.

(** ** The invariant is kept *)

Lemma set_ok_lt h key l : set_ok h key l → l < length (Sets h).
Proof. intros (s & Hs & _). by eapply lookup_lt_Some. Qed.

Lemma set_ok_frame h h' key l :
  set_ok h key l → Sets h' !! l = Sets h !! l → set_ok h' key l.
Proof. intros (s & Hs & Hok) Heq. exists s. by rewrite Heq. Qed.

Lemma wf_create h : wf create h.
Proof.
  split; simpl; done.
Qed.

Lemma add_spec this t m h :
  wf this h →
  ∃ this' h',
    add this t m h = Some (this', h') ∧ wf this' h' ∧
    frame this h this' h' ∧
    Arrays h' = Arrays h ∧ _members this' = _members this ∧
    ∀ key m', holds this' h' key m' ↔
              (key = targetGuid t ∧ m' = m) ∨ holds this h key m'.
Proof.
  intros [Hsets Hinj Htargets Hmembers Hcache].
  destruct (sets this !! targetGuid t) as [l|] eqn:Hl.
  - destruct (Hsets _ _ Hl) as (s & Hs & Hmark & Hne & Hnd & Hkey).
    assert (l < length (Sets h)) as Hlt by by eapply lookup_lt_Some.
    eexists _, _. split; [by apply add_known|].
    split_and!; simpl; try done.
    + split; simpl; try done.
      intros key' l' Hl'. destruct (decide (l' = l)) as [->|Hneq].
      * rewrite (Hinj _ _ _ Hl' Hl). exists (Set_add m s). simpl.
        rewrite list_lookup_insert_eq by done.
        rewrite isTargetSet_Set_add, target_Set_add.
        split_and!; auto using Set_add_not_empty, NoDup_Set_add.
      * eapply set_ok_frame; [by apply Hsets|]. simpl.
        by apply list_lookup_insert_ne.
    + split; simpl.
      * intros l' _ Hl'. apply list_lookup_insert_ne. intros ->.
        by eapply Hl'.
      * done.
      * intros key' l' Hl'. left. by exists key'.
      * intros a Ha. by left.
    + intros key m'. unfold holds. simpl. split.
      * intros (l' & s' & Hl' & Hs' & Hm').
        destruct (decide (l' = l)) as [->|Hneq].
        -- rewrite list_lookup_insert_eq in Hs' by done.
           injection Hs' as <-. apply elem_of_Set_add in Hm' as [->|Hm'].
           ++ left. split; [|done]. by eapply Hinj.
           ++ right. by exists l, s.
        -- rewrite list_lookup_insert_ne in Hs' by done.
           right. by exists l', s'.
      * intros [[-> ->]|(l' & s' & Hl' & Hs' & Hm')].
        -- exists l, (Set_add m s). rewrite list_lookup_insert_eq by done.
           split_and!; [done..|]. apply elem_of_Set_add. by left.
        -- destruct (decide (l' = l)) as [->|Hneq].
           ++ exists l, (Set_add m s).
              rewrite list_lookup_insert_eq by done.
              split_and!; [done..|]. apply elem_of_Set_add. right.
              congruence.
           ++ exists l', s'. by rewrite list_lookup_insert_ne.
  - eexists _, _. split; [by apply add_new|].
    assert (∀ key l, sets this !! key = Some l → l < length (Sets h))
      as Hold by (intros; by eapply set_ok_lt, Hsets).
    split_and!; simpl; try done.
    + split; simpl.
      * intros key' l'. rewrite lookup_insert. case_decide as Hk.
        -- intros [= <-]. subst key'. eexists. simpl.
           split; [by apply list_lookup_middle|]. simpl.
           split_and!; try done. apply NoDup_singleton.
        -- intros Hl'. eapply set_ok_frame; [by apply Hsets|]. simpl.
           apply lookup_app_l. by eapply Hold.
      * intros k1 k2 l'. rewrite !lookup_insert.
        repeat case_decide; subst; try done.
        -- intros [= <-] Hk2. apply Hold in Hk2. lia.
        -- intros Hk1 [= <-]. apply Hold in Hk1. lia.
        -- apply Hinj.
      * rewrite map_size_insert_None by done. lia.
      * done.
      * done.
    + split; simpl.
      * intros l' Hlt _. by apply lookup_app_l.
      * done.
      * intros key' l'. rewrite lookup_insert. case_decide.
        -- intros [= <-]. by right.
        -- intros Hl'. left. by exists key'.
      * intros a Ha. by left.
    + intros key m'. unfold holds. simpl. split.
      * intros (l' & s' & Hl' & Hs' & Hm'). revert Hl'.
        rewrite lookup_insert. case_decide as Hk.
        -- intros [= <-]. rewrite list_lookup_middle in Hs' by done.
           injection Hs' as <-. simpl in Hm'.
           apply list_elem_of_singleton in Hm'. by left.
        -- intros Hl'. right. exists l', s'.
           rewrite lookup_app_l in Hs' by by eapply Hold.
           done.
      * intros [[-> ->]|(l' & s' & Hl' & Hs' & Hm')].
        -- eexists _, _. rewrite lookup_insert_eq.
           rewrite list_lookup_middle by done.
           split_and!; [done..|]. simpl. by apply list_elem_of_singleton.
        -- exists l', s'. rewrite lookup_insert_ne by congruence.
           rewrite lookup_app_l by by eapply Hold. done.
Qed.

Lemma frame_refl this h : frame this h this h.
Proof.
  split; try done.
  - intros key l Hl. left. by exists key.
  - intros a Ha. by left.
Qed.

Lemma filter_nil_all (m m' : method) (l : list method) :
  filter (λ x, x ≠ m) l = [] → m' ∈ l → m' = m.
Proof.
  intros Hf Hin. destruct (decide (m' = m)) as [|Hne]; [done|].
  assert (m' ∈ filter (λ x, x ≠ m) l) as Hin'
    by by apply list_elem_of_filter.
  rewrite Hf in Hin'. by apply not_elem_of_nil in Hin'.
Qed.

Lemma remove_spec this t m h :
  wf this h →
  ∃ b this' h',
    remove this t m h = Some ((b, this'), h') ∧ wf this' h' ∧
    frame this h this' h' ∧
    Arrays h' = Arrays h ∧ _members this' = _members this ∧
    (b = true ↔ is_Some (sets this !! targetGuid t)) ∧
    ∀ key m', holds this' h' key m' ↔
              holds this h key m' ∧ ¬ (key = targetGuid t ∧ m' = m).
Proof.
  intros Hwf. pose proof Hwf as [Hsets Hinj Htargets Hmembers Hcache].
  destruct (sets this !! targetGuid t) as [l|] eqn:Hl.
  - destruct (Hsets _ _ Hl) as (s & Hs & Hmark & Hne & Hnd & Hkey).
    assert (l < length (Sets h)) as Hlt by by eapply lookup_lt_Some.
    destruct (decide (filter (λ x, x ≠ m) (items s) = [])) as [Hf|Hf].
    + eexists _, _, _. split; [by eapply remove_last|].
      split_and!; simpl; try done.
      * split; simpl.
        -- intros key' l' [Hk Hl']%lookup_delete_Some.
           eapply set_ok_frame; [by apply Hsets|]. simpl.
           apply list_lookup_insert_ne. intros ->.
           apply Hk. by eapply Hinj.
        -- intros k1 k2 l' [_ Hk1]%lookup_delete_Some
             [_ Hk2]%lookup_delete_Some. by eapply Hinj.
        -- rewrite map_size_delete_Some by done.
           assert (size (sets this) ≠ 0%nat); [|lia].
           intros Hz%map_size_empty_inv. by rewrite Hz in Hl.
        -- done.
        -- done.
      * split; simpl.
        -- intros l' _ Hl'. apply list_lookup_insert_ne. intros ->.
           by eapply Hl'.
        -- done.
        -- intros key' l' [_ Hl']%lookup_delete_Some. left. by exists key'.
        -- intros a Ha. by left.
      * intros key m'. unfold holds. simpl. split.
        -- intros (l' & s' & [Hk Hl']%lookup_delete_Some & Hs' & Hm').
           assert (l' ≠ l) as Hneq
             by (intros ->; apply Hk; by eapply Hinj).
           rewrite list_lookup_insert_ne in Hs' by done.
           split; [by exists l', s'|]. intros [-> _]. done.
        -- intros [(l' & s' & Hl' & Hs' & Hm') Hnot].
           destruct (decide (key = targetGuid t)) as [->|Hk].
           ++ exfalso. apply Hnot. split; [done|].
              assert (l' = l) as -> by congruence.
              assert (s' = s) as -> by congruence.
              by eapply filter_nil_all.
           ++ exists l', s'. rewrite lookup_delete_ne by done.
              rewrite list_lookup_insert_ne; [done|].
              intros <-. apply Hk. by eapply Hinj.
    + eexists _, _, _. split; [by eapply remove_some|].
      split_and!; simpl; try done.
      * split; simpl; try done.
        intros key' l' Hl'. destruct (decide (l' = l)) as [->|Hneq].
        -- rewrite (Hinj _ _ _ Hl' Hl). exists (Set_remove m s). simpl.
           rewrite list_lookup_insert_eq by done.
           split_and!; try done. by apply NoDup_filter.
        -- eapply set_ok_frame; [by apply Hsets|]. simpl.
           by apply list_lookup_insert_ne.
      * split; simpl.
        -- intros l' _ Hl'. apply list_lookup_insert_ne. intros ->.
           by eapply Hl'.
        -- done.
        -- intros key' l' Hl'. left. by exists key'.
        -- intros a Ha. by left.
      * intros key m'. unfold holds. simpl. split.
        -- intros (l' & s' & Hl' & Hs' & Hm').
           destruct (decide (l' = l)) as [->|Hneq].
           ++ rewrite list_lookup_insert_eq in Hs' by done.
              injection Hs' as <-.
              apply elem_of_Set_remove in Hm' as [Hne' Hm'].
              split; [by exists l, s|]. by intros [_ ->].
           ++ rewrite list_lookup_insert_ne in Hs' by done.
              split; [by exists l', s'|]. intros [-> _].
              apply Hneq. congruence.
        -- intros [(l' & s' & Hl' & Hs' & Hm') Hnot].
           destruct (decide (l' = l)) as [->|Hneq].
           ++ exists l, (Set_remove m s).
              rewrite list_lookup_insert_eq by done.
              split_and!; [done..|]. apply elem_of_Set_remove.
              assert (s' = s) as -> by congruence.
              split; [|done]. intros ->. apply Hnot.
              split; [|done]. by eapply Hinj.
           ++ exists l', s'. by rewrite list_lookup_insert_ne.
  - eexists _, _, _. split; [by apply remove_unknown|].
    split_and!; try done.
    + apply frame_refl.
    + intros key m'. split; [|by intros [? _]].
      intros Hh. split; [done|]. intros [-> ->].
      destruct Hh as (l' & s' & Hl' & _). congruence.
Qed.

Lemma getMembers_spec this h :
  wf this h →
  ∃ a this' h',
    getMembers this h = Some ((Some a, this'), h') ∧ wf this' h' ∧
    frame this h this' h' ∧
    Sets h' = Sets h ∧ sets this' = sets this ∧
    targets this' = targets this ∧
    _members this' = Some a ∧ _membersCacheIsValid this' = true ∧
    Arrays h' !! a = Some (current_members this h) ∧
    (_members this = Some a ∨
     (_members this = None ∧ a = length (Arrays h))) ∧
    (_membersCacheIsValid this = true → this' = this ∧ h' = h) ∧
    (∀ a' : loc, a' ≠ a → Arrays h' !! a' = Arrays h !! a').
Proof.
  intros Hwf. pose proof Hwf as [Hsets Hinj Htargets Hmembers Hcache].
  assert (∀ (key : string) (l : loc),
            sets this !! key = Some l → is_Some (Sets h !! l)) as Hsome.
  { intros key l Hl. destruct (Hsets _ _ Hl) as (s & Hs & _). eauto. }
  destruct (_membersCacheIsValid this) eqn:Hv.
  - destruct (Hcache eq_refl) as (a & Ha & Harr).
    exists a, this, h. rewrite getMembers_cached, Ha by done.
    split_and!; auto using frame_refl.
  - destruct (_members this) as [a|] eqn:Ha.
    + specialize (Hmembers _ eq_refl).
      eexists _, _, _. split; [by apply getMembers_again|].
      split_and!; simpl; try done.
      * split; simpl; try done.
        -- intros a' Ha'. simplify_eq. by rewrite length_insert.
        -- intros _. exists a. split; [done|].
           by apply list_lookup_insert_eq.
      * split; simpl; try done.
        -- intros a' _ Hne. apply list_lookup_insert_ne. congruence.
        -- intros key l Hl. left. by exists key.
        -- intros a' Ha'. by left.
      * by apply list_lookup_insert_eq.
      * by left.
      * intros a' Hne. by apply list_lookup_insert_ne.
    + eexists _, _, _. split; [by apply getMembers_first|].
      split_and!; simpl; try done.
      * split; simpl; try done.
        -- intros a' Ha'. simplify_eq. rewrite length_app. simpl. lia.
        -- intros _. eexists. split; [done|].
           by apply list_lookup_middle.
      * split; simpl; try done.
        -- intros a' Hlt _. by apply lookup_app_l.
        -- intros key l Hl. left. by exists key.
        -- intros a' Ha'. simplify_eq. by right.
      * by apply list_lookup_middle.
      * by right.
      * intros a' Hne. destruct (decide (a' < length (Arrays h))).
        -- by apply lookup_app_l.
        -- rewrite !lookup_ge_None_2; [done|lia|].
           rewrite length_app. simpl. lia.
Qed.

Lemma members_eq this h :
  wf this h → members this h = Some (current_members this h).
Proof.
  intros Hwf. unfold members.
  destruct (getMembers_spec _ _ Hwf)
    as (a & this' & h' & -> & _ & _ & _ & _ & _ & _ & _ & Ha & _).
  done.
Qed.

(** ** [clone] *)

Lemma clone_body_eq ret_ key l hcur s :
  Sets hcur !! l = Some s →
  isTargetSet s = true →
  clone_body ret_ (key, l) hcur
  = Some (with_sets (insert key (length (Sets hcur))) ret_,
          {| Sets := Sets hcur ++ [s]; Arrays := Arrays hcur |}).
Proof.
  intros Hs Hmark. unfold clone_body. unfold_M. rewrite Hs, Hmark. simpl.
  assert (l < length (Sets hcur)) by by eapply lookup_lt_Some.
  rewrite lookup_app_l, Hs by done. simpl.
  rewrite list_lookup_middle by done.
  rewrite insert_app_r_alt, Nat.sub_diag by done. simpl.
  by destruct s.
Qed.

Lemma for_each_inv_from {A S} (body : S → A → M S)
    (I : list A → S → heap → Prop) (l : list A) :
  (∀ seen x rest st h, l = seen ++ x :: rest → I seen st h →
     ∃ st' h', body st x h = Some (st', h') ∧ I (seen ++ [x]) st' h') →
  ∀ todo seen st h, l = seen ++ todo → I seen st h →
    ∃ st' h', for_each body todo st h = Some (st', h') ∧ I l st' h'.
Proof.
  intros Hbody. induction todo as [|x todo IH]; intros seen st h Hl HI.
  - exists st, h. rewrite app_nil_r in Hl. by subst.
  - destruct (Hbody seen x todo st h Hl HI) as (st1 & h1 & Hx & HI1).
    destruct (IH (seen ++ [x]) st1 h1) as (st' & h' & Htodo & HI');
      [rewrite <- app_assoc; exact Hl|done|].
    exists st', h'. split; [|done].
    simpl. unfold mbind, M_bind. by rewrite Hx.
Qed.

Lemma for_each_inv {A S} (body : S → A → M S)
    (I : list A → S → heap → Prop) (l : list A) st h :
  (∀ seen x rest st h, l = seen ++ x :: rest → I seen st h →
     ∃ st' h', body st x h = Some (st', h') ∧ I (seen ++ [x]) st' h') →
  I [] st h →
  ∃ st' h', for_each body l st h = Some (st', h') ∧ I l st' h'.
Proof.
  intros Hbody HI. by apply (for_each_inv_from body I l Hbody l []).
Qed.

Lemma clone_body_inv this h seen ret_ hcur key l :
  wf this h →
  clone_inv this h seen ret_ hcur →
  sets this !! key = Some l →
  key ∉ seen →
  ∃ ret' h', clone_body ret_ (key, l) hcur = Some (ret', h') ∧
             clone_inv this h (seen ++ [key]) ret' h'.
Proof.
  intros Hwf (Harr & [extra Hext] & Hmem & Hnew & Hinj & Hseen) Hl Hfresh.
  destruct (wf_sets _ _ _ Hwf _ _ Hl) as (s & Hs & Hmark & _).
  assert (l < length (Sets h)) as Hlt by by eapply lookup_lt_Some.
  assert (Sets hcur !! l = Some s) as Hs'
    by by rewrite Hext, lookup_app_l.
  eexists _, _. split; [by apply clone_body_eq|].
  assert (length (Sets h) ≤ length (Sets hcur))%nat as Hle
    by (rewrite Hext, length_app; lia).
  split_and!; simpl.
  - done.
  - exists (extra ++ [s]). by rewrite Hext, app_assoc.
  - done.
  - intros key' l'. rewrite lookup_insert. case_decide as Hk.
    + intros [= <-]. subst key'. split; [done|].
      exists l, s. split_and!; [done..|]. by apply list_lookup_middle.
    + intros Hl'. destruct (Hnew _ _ Hl') as (Hge & l0 & s0 & ? & ? & Hcur).
      split; [done|]. exists l0, s0. split_and!; [done..|].
      rewrite lookup_app_l; [done|]. by eapply lookup_lt_Some.
  - assert (∀ k l', sets ret_ !! k = Some l' → l' < length (Sets hcur))
      as Hbound.
    { intros k l' Hk. destruct (Hnew _ _ Hk) as (_ & ? & ? & _ & _ & Hcur).
      by eapply lookup_lt_Some. }
    intros k1 k2 l'. rewrite !lookup_insert.
    repeat case_decide; subst; try done.
    + intros [= <-] Hk2. apply Hbound in Hk2. lia.
    + intros Hk1 [= <-]. apply Hbound in Hk1. lia.
    + apply Hinj.
  - intros key'. rewrite elem_of_app, list_elem_of_singleton, <- Hseen.
    rewrite lookup_insert. case_decide as Hk.
    + subst key'. split; [by right|eauto].
    + split; [by left|]. intros [?|?]; [done|congruence].
Qed.

Lemma clone_spec this h :
  wf this h →
  ∃ this' h',
    clone this h = Some (this', h') ∧ wf this' h' ∧
    frame this h this' h' ∧
    Arrays h' = Arrays h ∧ (∃ extra, Sets h' = Sets h ++ extra) ∧
    targets this' = targets this ∧
    _membersCacheIsValid this' = false ∧ _members this' = None ∧
    (∀ (key : string) (l' : loc), sets this' !! key = Some l' →
       (length (Sets h) ≤ l')%nat ∧
       ∃ l s, sets this !! key = Some l ∧ Sets h !! l = Some s ∧
              Sets h' !! l' = Some s) ∧
    (∀ key : string,
       is_Some (sets this' !! key) ↔ is_Some (sets this !! key)).
Proof.
  intros Hwf.
  destruct (for_each_inv clone_body
              (λ seen, clone_inv this h (seen.*1))
              (map_to_list (sets this)) create h)
    as (ret_ & h' & Hloop & Harr & Hext & Hmem & Hnew & Hinj & Hseen).
  { intros seen [key l] rest st hcur Hsplit HI.
    rewrite fmap_app. apply clone_body_inv; [done..| |].
    - apply elem_of_map_to_list. rewrite Hsplit.
      apply elem_of_app. right. by left.
    - pose proof (NoDup_fst_map_to_list (sets this)) as Hnd.
      rewrite Hsplit, fmap_app in Hnd. apply NoDup_app in Hnd as (_ & Hnd & _).
      intros Hin. apply (Hnd _ Hin). by left. }
  { split_and!; simpl; try done.
    - by exists []; rewrite app_nil_r.
    - intros key. rewrite lookup_empty. split; [by intros [? ?]|].
      by intros ?%not_elem_of_nil. }
  assert (∀ key : string,
            is_Some (sets ret_ !! key) ↔ is_Some (sets this !! key)) as Hdom.
  { intros key. rewrite Hseen. split.
    - intros [[key' l] [-> Hin%elem_of_map_to_list]]%list_elem_of_fmap.
      by exists l.
    - intros [l Hl]. apply list_elem_of_fmap. exists (key, l).
      split; [done|]. by apply elem_of_map_to_list. }
  eexists _, _. split.
  { unfold clone. unfold mbind, M_bind. rewrite Hloop. done. }
  split_and!; simpl; try done.
  - split; simpl; try done.
    + intros key l' Hl'.
      destruct (Hnew _ _ Hl') as (_ & l & s & Hl & Hs & Hs').
      destruct (wf_sets _ _ _ Hwf _ _ Hl) as (s0 & Hs0 & Hok).
      exists s. split; [done|]. by simplify_eq.
    + rewrite (wf_targets _ _ _ Hwf). f_equal.
      rewrite <- !(size_dom (D := gset string)). f_equal.
      apply set_eq. intros key. by rewrite !elem_of_dom.
    + intros a. by rewrite Hmem.
  - destruct Hext as [extra Hext]. split; simpl.
    + intros l Hlt _. by rewrite Hext, lookup_app_l.
    + intros a _ _. by rewrite Harr.
    + intros key l' Hl'. right. by destruct (Hnew _ _ Hl').
    + by rewrite Hmem.
Qed.

(** ** The members of a well-formed observer set *)

Lemma members_in_mapping this h om :
  wf this h → om ∈ current_members this h ↔ in_mapping this h om.
Proof.
  intros Hwf. destruct om as [o m]. rewrite elem_of_current_members.
  unfold in_mapping. simpl. split.
  - intros (key & l & s & ? & ? & _ & ? & ?). by exists key, l, s.
  - intros (key & l & s & Hl & Hs & ? & ?). exists key, l, s.
    destruct (wf_sets _ _ _ Hwf _ _ Hl) as (s' & Hs' & Hmark & _).
    by simplify_eq.
Qed.

Lemma members_holds this h o m :
  wf this h → (o, m) ∈ current_members this h → holds this h (targetGuid o) m.
Proof.
  intros Hwf (key & l & s & Hl & Hs & _ & <- & Hm)%elem_of_current_members.
  destruct (wf_sets _ _ _ Hwf _ _ Hl) as (s' & Hs' & _ & _ & _ & Hkey).
  rewrite Hs in Hs'. injection Hs' as <-. exists l, s. by rewrite Hkey.
Qed.

Lemma holds_members this h key m :
  wf this h → holds this h key m →
  ∃ o, targetGuid o = key ∧ (o, m) ∈ current_members this h.
Proof.
  intros Hwf (l & s & Hl & Hs & Hm).
  destruct (wf_sets _ _ _ Hwf _ _ Hl) as (s' & Hs' & Hmark & _ & _ & Hkey).
  rewrite Hs in Hs'. injection Hs' as <-. exists (target s).
  split; [done|]. apply elem_of_current_members. by exists key, l, s.
Qed.

Lemma same_target_same_set this h kv1 kv2 s1 s2 :
  wf this h →
  kv1 ∈ map_to_list (sets this) → kv2 ∈ map_to_list (sets this) →
  Sets h !! kv1.2 = Some s1 → Sets h !! kv2.2 = Some s2 →
  target s1 = target s2 → kv1 = kv2.
Proof.
  intros Hwf Hkv1%elem_of_map_to_list' Hkv2%elem_of_map_to_list' Hs1 Hs2 Ht.
  destruct (wf_sets _ _ _ Hwf _ _ Hkv1) as (s1' & Hs1' & _ & _ & _ & Hk1).
  destruct (wf_sets _ _ _ Hwf _ _ Hkv2) as (s2' & Hs2' & _ & _ & _ & Hk2).
  destruct kv1 as [k1 l1], kv2 as [k2 l2]. simpl in *.
  assert (k1 = k2) as -> by congruence. f_equal. congruence.
Qed.

Lemma NoDup_current_members this h :
  wf this h → NoDup (current_members this h).
Proof.
  intros Hwf. unfold current_members, collect. apply NoDup_bind.
  - intros kv1 kv2 [o m] Hkv1 Hkv2 Hin1 Hin2.
    destruct (Sets h !! kv1.2) as [s1|] eqn:Hs1;
      [|by apply not_elem_of_nil in Hin1].
    destruct (Sets h !! kv2.2) as [s2|] eqn:Hs2;
      [|by apply not_elem_of_nil in Hin2].
    destruct (isTargetSet s1); [|by apply not_elem_of_nil in Hin1].
    destruct (isTargetSet s2); [|by apply not_elem_of_nil in Hin2].
    apply list_elem_of_fmap in Hin1 as (m1 & [= -> ->] & _).
    apply list_elem_of_fmap in Hin2 as (m2 & [= Ht ->] & _).
    by eapply same_target_same_set.
  - intros kv Hkv%elem_of_map_to_list'.
    destruct (wf_sets _ _ _ Hwf _ _ Hkv) as (s & -> & -> & _ & Hnd & _).
    unfold set_members.
    apply NoDup_fmap_2_strong; [|by rewrite reverse_Permutation].
    by intros m1 m2 _ _ [= ->].
  - apply NoDup_map_to_list.
Qed.

Lemma distinct_targets this h :
  wf this h →
  length (remove_dups (current_members this h).*1) = size (sets this).
Proof.
  intros Hwf. rewrite <- length_map_to_list.
  rewrite <- (length_fmap (λ kv : string * loc,
                 default JSUndefined (target <$> Sets h !! kv.2))).
  apply Permutation_length, NoDup_Permutation.
  - apply NoDup_remove_dups.
  - apply NoDup_fmap_2_strong; [|apply NoDup_map_to_list].
    intros kv1 kv2 Hkv1 Hkv2 Ht.
    destruct (wf_sets _ _ _ Hwf _ _ (proj1 (elem_of_map_to_list' _ _) Hkv1))
      as (s1 & Hs1 & _).
    destruct (wf_sets _ _ _ Hwf _ _ (proj1 (elem_of_map_to_list' _ _) Hkv2))
      as (s2 & Hs2 & _).
    rewrite Hs1, Hs2 in Ht. simpl in Ht.
    by eapply same_target_same_set.
  - intros o. rewrite elem_of_remove_dups, !list_elem_of_fmap. split.
    + intros ([o' m] & -> & Hin). simpl.
      apply elem_of_current_members in Hin
        as (key & l & s & Hl & Hs & _ & <- & _).
      exists (key, l). simpl. rewrite Hs. simpl.
      split; [done|]. by apply elem_of_map_to_list.
    + intros ([key l] & -> & Hl%elem_of_map_to_list). simpl.
      destruct (wf_sets _ _ _ Hwf _ _ Hl) as (s & Hs & Hmark & Hne & _).
      rewrite Hs. simpl. destruct (items s) as [|m ms] eqn:Hitems; [done|].
      exists (target s, m). split; [done|].
      apply elem_of_current_members. exists key, l, s.
      rewrite Hitems. split_and!; [done..|]. by left.
Qed.

(** ** Calls and sequences of calls *)

Lemma do_call_wf this h c :
  wf this h →
  ∃ this' h',
    do_call this c h = Some (this', h') ∧ wf this' h' ∧
    frame this h this' h' ∧
    ∀ key m', holds this' h' key m' ↔
      match c with
      | Add t m => (key = targetGuid t ∧ m' = m) ∨ holds this h key m'
      | Remove t m => holds this h key m' ∧ ¬ (key = targetGuid t ∧ m' = m)
      | _ => holds this h key m'
      end.
Proof.
  intros Hwf. destruct c as [t m|t m| |]; simpl.
  - destruct (add_spec this t m h Hwf)
      as (this' & h' & Hadd & Hwf' & Hframe & _ & _ & Hholds).
    by exists this', h'.
  - destruct (remove_spec this t m h Hwf)
      as (b & this' & h' & Hrem & Hwf' & Hframe & _ & _ & _ & Hholds).
    exists this', h'. unfold mbind, M_bind. by rewrite Hrem.
  - destruct (getMembers_spec this h Hwf)
      as (a & this' & h' & Hget & Hwf' & Hframe & Hsets & Hsets' & _).
    exists this', h'. unfold mbind, M_bind. rewrite Hget.
    split_and!; [done..|].
    intros key m'. unfold holds. by rewrite Hsets, Hsets'.
  - destruct (clone_spec this h Hwf)
      as (this' & h' & Hclone & Hwf' & Hframe & _ & _ & _ & _ & _ &
          Hnew & Hdom).
    exists this', h'. split_and!; [done..|].
    intros key m'. unfold holds. split.
    + intros (l' & s' & Hl' & Hs' & Hm).
      destruct (Hnew _ _ Hl') as (_ & l0 & s0 & Hl0 & Hs0 & Hs'').
      exists l0, s0. by simplify_eq.
    + intros (l & s & Hl & Hs & Hm).
      destruct (proj2 (Hdom key)) as [l' Hl']; [eauto|].
      destruct (Hnew _ _ Hl') as (_ & l0 & s0 & Hl0 & Hs0 & Hs').
      exists l', s0. by simplify_eq.
Qed.

Lemma do_call_spec this h c R :
  wf this h →
  abstracts this h R →
  ∃ this' h',
    do_call this c h = Some (this', h') ∧ wf this' h' ∧
    frame this h this' h' ∧ abstracts this' h' (track R c).
Proof.
  intros Hwf HR.
  destruct (do_call_wf this h c Hwf)
    as (this' & h' & Hc & Hwf' & Hframe & Hholds).
  exists this', h'. split_and!; [done..|].
  intros key m'. rewrite Hholds. destruct c as [t m|t m| |]; simpl.
  - rewrite elem_of_union, elem_of_singleton, (HR key m').
    split; (intros [Heq|?]; [left|by right]); [by injection Heq|].
    by destruct Heq as [-> ->].
  - rewrite elem_of_difference, elem_of_singleton, (HR key m').
    split; (intros [? Hne]; split; [done|]); intros Heq; apply Hne.
    + by destruct Heq as [-> ->].
    + by injection Heq.
  - apply HR.
  - apply HR.
Qed.

Lemma for_each_do_call_spec cs this h R :
  wf this h →
  abstracts this h R →
  ∃ this' h',
    for_each do_call cs this h = Some (this', h') ∧ wf this' h' ∧
    abstracts this' h' (foldl track R cs).
Proof.
  revert this h R. induction cs as [|c cs IH]; intros this h R Hwf HR.
  - by exists this, h.
  - destruct (do_call_spec this h c R Hwf HR)
      as (this1 & h1 & Hc & Hwf1 & _ & HR1).
    destruct (IH this1 h1 _ Hwf1 HR1) as (this' & h' & Hcs & Hwf' & HR').
    exists this', h'. split_and!; [|done..].
    simpl. unfold mbind, M_bind. by rewrite Hc.
Qed.

Lemma run_spec cs h0 :
  ∃ this h,
    run cs h0 = Some (this, h) ∧ wf this h ∧
    abstracts this h (registered cs).
Proof.
  apply for_each_do_call_spec; [apply wf_create|].
  intros key m. unfold holds. simpl. split; [set_solver|].
  intros (l & s & Hl & _). by rewrite lookup_empty in Hl.
Qed.

(** ** Two observer sets in one heap *)

Lemma separate_sym a b : separate a b → separate b a.
Proof.
  intros [Hsets Harr]. split.
  - intros k1 k2 l Hb Ha. by eapply Hsets.
  - intros x Hb Ha. by eapply Harr.
Qed.

Lemma wf_frame a h a' h' b :
  wf b h → separate a b → frame a h a' h' →
  wf b h' ∧ separate a' b ∧ current_members b h' = current_members b h.
Proof.
  intros Hwf [Hsep Hsep'] [Hfs Hfa Hns Hna].
  assert (∀ (key : string) (l : loc),
            sets b !! key = Some l → Sets h' !! l = Sets h !! l) as Hsame.
  { intros key l Hl. apply Hfs.
    - by eapply set_ok_lt, wf_sets.
    - intros key' Hl'. by eapply Hsep. }
  assert (current_members b h' = current_members b h) as Hcm
    by by apply current_members_ext.
  assert (∀ x : loc, _members b = Some x → Arrays h' !! x = Arrays h !! x)
    as Hsame'.
  { intros x Hx. apply Hfa; [by eapply wf_members|].
    intros Ha. by eapply Hsep'. }
  split_and!; [|split|done].
  - split.
    + intros key l Hl. eapply set_ok_frame; [by eapply wf_sets|eauto].
    + by eapply wf_inj.
    + by eapply wf_targets.
    + intros x Hx. apply lookup_lt_is_Some. rewrite Hsame' by done.
      apply lookup_lt_is_Some. by eapply wf_members.
    + intros Hv. destruct (wf_cache _ _ _ Hwf Hv) as (x & Hx & Harr).
      exists x. split; [done|]. by rewrite Hsame', Hcm.
  - intros k1 k2 l Ha' Hb.
    destruct (Hns _ _ Ha') as [[key' Ha]|Hge]; [by eapply Hsep|].
    assert (l < length (Sets h)) by by eapply set_ok_lt, wf_sets. lia.
  - intros x Ha' Hb.
    destruct (Hna _ Ha') as [Ha|Hge]; [by eapply Hsep'|].
    assert (x < length (Arrays h)) by by eapply wf_members. lia.
Qed.

Lemma wf_heap_ext this h h' :
  wf this h →
  (∀ l : loc, l < length (Sets h) → Sets h' !! l = Sets h !! l) →
  Arrays h' = Arrays h →
  wf this h' ∧ current_members this h' = current_members this h.
Proof.
  intros Hwf Hsets Harr.
  assert (current_members this h' = current_members this h) as Hcm.
  { apply current_members_ext. intros key l Hl. apply Hsets.
    by eapply set_ok_lt, wf_sets. }
  split; [|done]. split.
  - intros key l Hl. eapply set_ok_frame; [by eapply wf_sets|].
    apply Hsets. by eapply set_ok_lt, wf_sets.
  - by eapply wf_inj.
  - by eapply wf_targets.
  - rewrite Harr. by eapply wf_members.
  - rewrite Harr, Hcm. by eapply wf_cache.
Qed.

Lemma do_call2_spec a b h sc :
  wf a h → wf b h → separate a b →
  ∃ a' b' h',
    do_call2 guidFor (a, b) sc h = Some ((a', b'), h') ∧
    wf a' h' ∧ wf b' h' ∧ separate a' b'.
Proof.
  intros Hwfa Hwfb Hsep. destruct sc as [[] c]; unfold do_call2; simpl.
  - destruct (do_call_wf a h c Hwfa) as (a' & h' & Hc & Hwf' & Hframe & _).
    destruct (wf_frame a h a' h' b) as (? & ? & _); [done..|].
    exists a', b, h'. unfold mbind, M_bind. by rewrite Hc.
  - destruct (do_call_wf b h c Hwfb) as (b' & h' & Hc & Hwf' & Hframe & _).
    destruct (wf_frame b h b' h' a) as (? & ? & _);
      [done|by apply separate_sym|done|].
    exists a, b', h'. unfold mbind, M_bind. rewrite Hc.
    split_and!; [done..|]. by apply separate_sym.
Qed.

Lemma for_each_do_call2_spec ops a b h :
  wf a h → wf b h → separate a b →
  ∃ a' b' h',
    for_each (do_call2 guidFor) ops (a, b) h = Some ((a', b'), h') ∧
    wf a' h' ∧ wf b' h' ∧ separate a' b'.
Proof.
  revert a b h. induction ops as [|sc ops IH]; intros a b h Hwfa Hwfb Hsep.
  - by exists a, b, h.
  - destruct (do_call2_spec a b h sc) as (a1 & b1 & h1 & Hsc & ? & ? & ?);
      [done..|].
    destruct (IH a1 b1 h1) as (a' & b' & h' & Hops & ? & ? & ?); [done..|].
    exists a', b', h'. split_and!; [|done..].
    simpl. unfold mbind, M_bind. by rewrite Hsc.
Qed.

Lemma members_frame a b h c :
  wf a h → wf b h → separate a b →
  ∃ a' h', do_call a c h = Some (a', h') ∧
           members b h' = members b h ∧ is_Some (members b h).
Proof.
  intros Hwfa Hwfb Hsep.
  destruct (do_call_wf a h c Hwfa) as (a' & h' & Hc & Hwf' & Hframe & _).
  destruct (wf_frame a h a' h' b) as (Hwfb' & _ & Hcm); [done..|].
  exists a', h'. rewrite !members_eq, Hcm by done. eauto.
Qed.

(** ** The claims about the observer set *)

(** C3.  After any sequence of calls on a new observer set, [targets] is
    the number of sets stored under a key, none of the stored sets is
    empty, and that number is the number of distinct targets among the
    members [getMembers] returns, and the number of distinct guids under
    which a method is registered. *)
Theorem targets_counts_stored_sets (cs : list call) (h0 : heap) :
  ∃ this h ms,
    run cs h0 = Some (this, h) ∧
    targets this = Z.of_nat (size (sets this)) ∧
    (∀ (key : string) (l : loc), sets this !! key = Some l →
       ∃ s, Sets h !! l = Some s ∧ items s ≠ []) ∧
    members this h = Some ms ∧
    targets this = Z.of_nat (length (remove_dups ms.*1)) ∧
    targets this
    = Z.of_nat (size (set_map (D := gset string) fst (registered cs))).
Proof.
  destruct (run_spec cs h0) as (this & h & Hrun & Hwf & HR).
  exists this, h, (current_members this h).
  split_and!; [done|by eapply wf_targets| |by apply members_eq| |].
  - intros key l Hl. destruct (wf_sets _ _ _ Hwf _ _ Hl) as (s & ? & _ & ? & _).
    by exists s.
  - rewrite distinct_targets by done. by eapply wf_targets.
  - rewrite (wf_targets _ _ _ Hwf), <- (size_dom (D := gset string)).
    do 2 f_equal. apply set_eq. intros key.
    rewrite elem_of_dom, elem_of_map. split.
    + intros [l Hl].
      destruct (wf_sets _ _ _ Hwf _ _ Hl) as (s & Hs & _ & Hne & _).
      destruct (items s) as [|m ms] eqn:Hitems; [done|].
      exists (key, m). split; [done|]. apply HR. exists l, s.
      rewrite Hitems. split_and!; [done..|]. by left.
    + intros ([key' m] & -> & (l & s & Hl & _)%HR). by exists l.
Qed.

(** C4.  After any sequence of calls, [getMembers] returns exactly the
    pairs in the mapping, each once; these are the registrations that the
    calls to [add] and [remove] left behind, however many calls to
    [getMembers] came between; and whenever the cache is marked valid the
    cached array holds exactly these pairs. *)
Theorem getMembers_reflects_mapping (cs : list call) (h0 : heap) :
  ∃ this h ms,
    run cs h0 = Some (this, h) ∧
    members this h = Some ms ∧
    NoDup ms ∧
    (∀ om, om ∈ ms ↔ in_mapping this h om) ∧
    (∀ o m, (o, m) ∈ ms → (targetGuid o, m) ∈ registered cs) ∧
    (∀ key m, (key, m) ∈ registered cs →
       ∃ o, targetGuid o = key ∧ (o, m) ∈ ms) ∧
    (_membersCacheIsValid this = true →
       ∃ a, _members this = Some a ∧ Arrays h !! a = Some ms).
Proof.
  destruct (run_spec cs h0) as (this & h & Hrun & Hwf & HR).
  exists this, h, (current_members this h).
  split_and!; [done|by apply members_eq|by apply NoDup_current_members| | | |].
  - intros om. by apply members_in_mapping.
  - intros o m Hin. apply HR. by apply members_holds.
  - intros key m Hin%HR. by apply holds_members.
  - by eapply wf_cache.
Qed.

(** C6.  [add] is idempotent: a second call with the same target and
    method changes nothing at all, so [getMembers] and [targets] give
    what they gave after the first. *)
Theorem add_idempotent (cs : list call) (h0 : heap) (t : value) (m : method) :
  ∃ this h this1 h1 this2 h2,
    run cs h0 = Some (this, h) ∧
    add this t m h = Some (this1, h1) ∧
    add this1 t m h1 = Some (this2, h2) ∧
    this2 = this1 ∧ h2 = h1 ∧
    members this2 h2 = members this1 h1 ∧
    is_Some (members this1 h1) ∧
    targets this2 = targets this1.
Proof.
  destruct (run_spec cs h0) as (this & h & Hrun & Hwf & _).
  destruct (add_spec this t m h Hwf) as (this1 & h1 & Hadd & Hwf1 & _).
  assert (add this1 t m h1 = Some (this1, h1)) as Hadd2.
  { destruct (sets this !! targetGuid t) as [l|] eqn:Hl.
    - destruct (wf_sets _ _ _ Hwf _ _ Hl) as (s & Hs & _).
      assert (l < length (Sets h)) as Hlt by by eapply lookup_lt_Some.
      rewrite (add_known _ _ _ _ _ _ Hl Hs) in Hadd.
      injection Hadd as <- <-.
      rewrite (add_known _ _ _ _ l (Set_add m s));
        [|done|by apply list_lookup_insert_eq].
      cbn [Sets Arrays]. rewrite list_insert_insert_eq.
      rewrite (Set_add_present m (Set_add m s)); [done|].
      apply elem_of_Set_add. by left.
    - rewrite (add_new _ _ _ _ Hl) in Hadd. injection Hadd as <- <-.
      rewrite (add_known _ _ _ _ (length (Sets h))
                 {| target := t; isTargetSet := true; items := [m] |});
        [|apply lookup_insert_eq|by apply list_lookup_middle].
      cbn [Sets Arrays].
      rewrite Set_add_present by (by apply list_elem_of_singleton).
      rewrite list_insert_id by by apply list_lookup_middle. done. }
  exists this, h, this1, h1, this1, h1.
  split_and!; try done. rewrite members_eq by done. eauto.
Qed.

Lemma add_remove_restores this h t m :
  wf this h →
  ¬ holds this h (targetGuid t) m →
  ∃ this1 h1 this2 h2,
    add this t m h = Some (this1, h1) ∧
    remove this1 t m h1 = Some ((true, this2), h2) ∧
    members this2 h2 = members this h ∧
    targets this2 = targets this.
Proof.
  intros Hwf Hnot.
  destruct (add_spec this t m h Hwf) as (this1 & h1 & Hadd & Hwf1 & _).
  destruct (remove_spec this1 t m h1 Hwf1)
    as (b & this2 & h2 & Hrem & Hwf2 & _).
  exists this1, h1, this2, h2. rewrite !members_eq by done.
  destruct (sets this !! targetGuid t) as [l|] eqn:Hl.
  - destruct (wf_sets _ _ _ Hwf _ _ Hl) as (s & Hs & _ & Hne & _).
    assert (m ∉ items s) as Hm by (intros Hm; apply Hnot; by exists l, s).
    assert (l < length (Sets h)) as Hlt by by eapply lookup_lt_Some.
    pose proof Hadd as Hadd'.
    rewrite (add_known _ _ _ _ _ _ Hl Hs) in Hadd'.
    injection Hadd' as <- <-. pose proof Hrem as Hrem'.
    rewrite (remove_some _ _ _ _ l (Set_add m s)) in Hrem'; simpl.
    + injection Hrem' as <- <- <-. split_and!; [done..| |done].
      f_equal. unfold current_members. simpl. apply collect_ext.
      intros kv _.
      rewrite list_insert_insert_eq, Set_remove_add by done.
      by rewrite list_insert_id.
    + done.
    + by apply list_lookup_insert_eq.
    + change (items (Set_remove m (Set_add m s)) ≠ []).
      by rewrite Set_remove_add.
  - pose proof Hadd as Hadd'.
    rewrite (add_new _ _ _ _ Hl) in Hadd'. injection Hadd' as <- <-.
    pose proof Hrem as Hrem'.
    rewrite (remove_last _ _ _ _ (length (Sets h))
               {| target := t; isTargetSet := true; items := [m] |})
      in Hrem'; simpl.
    + injection Hrem' as <- <- <-. simpl. split_and!; [done..| |lia].
      f_equal. unfold current_members. simpl.
      rewrite delete_insert_id by done. apply collect_ext.
      intros [key l] Hkv%elem_of_map_to_list. simpl.
      assert (l < length (Sets h)) by by eapply set_ok_lt, wf_sets.
      rewrite list_lookup_insert_ne by lia. by apply lookup_app_l.
    + apply lookup_insert_eq.
    + by apply list_lookup_middle.
    + rewrite filter_cons, decide_False by (intros Hne; by apply Hne).
      done.
Qed.

(** C7, as amended.  Round trip: when no member of the observer set has
    the method [m] together with a target that has the guid of [t], [add]
    followed by [remove] returns YES and leaves the result of [getMembers]
    and [targets] as they were.  For a truthy target, under an allocator
    that gives distinct objects distinct guids and never the reserved one,
    that condition is just that the pair [(t, m)] is not a member. *)
Theorem add_then_remove_round_trip
    (cs : list call) (h0 : heap) (t : value) (m : method) :
  ∃ this h ms,
    run cs h0 = Some (this, h) ∧
    members this h = Some ms ∧
    ((∀ o, targetGuid o = targetGuid t → (o, m) ∉ ms) →
     ∃ this1 h1 this2 h2,
       add this t m h = Some (this1, h1) ∧
       remove this1 t m h1 = Some ((true, this2), h2) ∧
       members this2 h2 = Some ms ∧
       targets this2 = targets this) ∧
    ((∀ r r', guidFor r = guidFor r' → r = r') →
     (∀ r, guidFor r ≠ "__this__") →
     truthy t = true →
     (t, m) ∉ ms →
     ∃ this1 h1 this2 h2,
       add this t m h = Some (this1, h1) ∧
       remove this1 t m h1 = Some ((true, this2), h2) ∧
       members this2 h2 = Some ms ∧
       targets this2 = targets this).
Proof.
  destruct (run_spec cs h0) as (this & h & Hrun & Hwf & _).
  exists this, h, (current_members this h).
  assert ((∀ o, targetGuid o = targetGuid t →
                (o, m) ∉ current_members this h) →
          ∃ this1 h1 this2 h2,
            add this t m h = Some (this1, h1) ∧
            remove this1 t m h1 = Some ((true, this2), h2) ∧
            members this2 h2 = Some (current_members this h) ∧
            targets this2 = targets this) as Hround.
  { intros Habsent.
    destruct (add_remove_restores this h t m Hwf)
      as (this1 & h1 & this2 & h2 & ? & ? & Hms & ?).
    { intros (o & Ho & Hin)%holds_members; [|done]. by eapply Habsent. }
    exists this1, h1, this2, h2. by rewrite Hms, members_eq. }
  split_and!; [done|by apply members_eq|done|].
  intros Hinj Hreserved Ht Hnotin. apply Hround. intros o Ho.
  destruct t as [| | | | | |r]; try done.
  destruct o as [| | | | | |r']; simpl in Ho;
    try (by symmetry in Ho; apply Hreserved in Ho).
  by rewrite (Hinj _ _ Ho).
Qed.

Lemma clone_separate this h :
  wf this h →
  ∃ this' h',
    clone this h = Some (this', h') ∧
    wf this h' ∧ wf this' h' ∧ separate this this' ∧
    targets this' = targets this ∧ _membersCacheIsValid this' = false ∧
    (∀ om, om ∈ current_members this h' ↔ om ∈ current_members this' h').
Proof.
  intros Hwf.
  destruct (clone_spec this h Hwf)
    as (this' & h' & Hclone & Hwf' & Hframe & Harr & [extra Hext] & Ht & Hv &
        Hmem & Hnew & Hdom).
  assert (∀ l : loc, l < length (Sets h) → Sets h' !! l = Sets h !! l)
    as Hold by (intros l Hlt; by rewrite Hext, lookup_app_l).
  destruct (wf_heap_ext this h h' Hwf Hold Harr) as [Hwf1 Hcm].
  exists this', h'. split_and!; try done.
  - split.
    + intros k1 k2 l Hl Hl'. destruct (Hnew _ _ Hl') as [Hge _].
      assert (l < length (Sets h)) by by eapply set_ok_lt, wf_sets. lia.
    + intros x _. by rewrite Hmem.
  - intros [o m]. rewrite Hcm, !elem_of_current_members. split.
    + intros (key & l & s & Hl & Hs & ? & ? & ?).
      destruct (proj2 (Hdom key)) as [l' Hl']; [eauto|].
      destruct (Hnew _ _ Hl') as (_ & l0 & s0 & Hl0 & Hs0 & Hs').
      exists key, l', s0. by simplify_eq.
    + intros (key & l' & s' & Hl' & Hs' & ? & ? & ?).
      destruct (Hnew _ _ Hl') as (_ & l0 & s0 & Hl0 & Hs0 & Hs'').
      exists key, l0, s0. by simplify_eq.
Qed.

(** With an [SC.Set.clone] that hands over the mark [isTargetSet]
    ([Set_clone], which [Clone] in a sequence of calls uses), a clone made
    after any sequence of calls has the members of the original (as
    sets), its [targets], and an invalid cache; and from then on, in any
    interleaving of calls on the two, a call on one leaves the other
    object as it is and does not change what [getMembers] returns for
    it. *)
Theorem clone_is_independent (cs : list call) (h0 : heap) :
  ∃ a h b h1 ma mb,
    run cs h0 = Some (a, h) ∧
    clone a h = Some (b, h1) ∧
    targets b = targets a ∧
    _membersCacheIsValid b = false ∧
    members a h1 = Some ma ∧ members b h1 = Some mb ∧
    (∀ om, om ∈ ma ↔ om ∈ mb) ∧
    ∀ ops : list (side * call),
      ∃ a' b' h',
        for_each (do_call2 guidFor) ops (a, b) h1 = Some ((a', b'), h') ∧
        ∀ c : call,
          (∃ a'' h'',
             do_call2 guidFor (a', b') (Original, c) h'
             = Some ((a'', b'), h'') ∧
             is_Some (members b' h') ∧ members b' h'' = members b' h') ∧
          (∃ b'' h'',
             do_call2 guidFor (a', b') (Copy, c) h'
             = Some ((a', b''), h'') ∧
             is_Some (members a' h') ∧ members a' h'' = members a' h').
Proof.
  destruct (run_spec cs h0) as (a & h & Hrun & Hwf & _).
  destruct (clone_separate a h Hwf)
    as (b & h1 & Hclone & Hwfa & Hwfb & Hsep & Ht & Hv & Hcm).
  exists a, h, b, h1, (current_members a h1), (current_members b h1).
  split_and!; try done; [by apply members_eq..|].
  intros ops.
  destruct (for_each_do_call2_spec ops a b h1 Hwfa Hwfb Hsep)
    as (a' & b' & h' & Hops & Hwfa' & Hwfb' & Hsep').
  exists a', b', h'. split; [done|]. intros c. split.
  - destruct (members_frame a' b' h' c Hwfa' Hwfb' Hsep')
      as (a'' & h'' & Hc & ? & ?).
    exists a'', h''. unfold do_call2, mbind, M_bind. simpl.
    by rewrite Hc.
  - destruct (members_frame b' a' h' c Hwfb' Hwfa' (separate_sym _ _ Hsep'))
      as (b'' & h'' & Hc & ? & ?).
    exists b'', h''. unfold do_call2, mbind, M_bind. simpl.
    by rewrite Hc.
Qed.

(** C8.  Every falsy target is filed under the one key ["__this__"];
    provided the allocator never hands out that guid, no truthy target
    shares it; and when two methods are added under falsy targets to an
    observer set that has no set under that key, the set keeps the target
    of the first call, which [getMembers] reports for both methods and for
    every member with a falsy target. *)
Theorem falsy_targets_share_one_set :
  (∀ v, truthy v = false → targetGuid v = "__this__") ∧
  ((∀ r, guidFor r ≠ "__this__") →
   ∀ v w, truthy v = false → truthy w = true →
          targetGuid w ≠ targetGuid v) ∧
  ∀ (cs : list call) (h0 : heap) (o1 o2 : value) (m1 m2 : method),
    truthy o1 = false → truthy o2 = false →
    ∃ this h,
      run cs h0 = Some (this, h) ∧
      (sets this !! "__this__" = None →
       ∃ this' h' l s ms,
         for_each do_call [Add o1 m1; Add o2 m2] this h = Some (this', h') ∧
         sets this' !! "__this__" = Some l ∧
         Sets h' !! l = Some s ∧ target s = o1 ∧
         members this' h' = Some ms ∧
         (o1, m1) ∈ ms ∧ (o1, m2) ∈ ms ∧
         ∀ o m, (o, m) ∈ ms → truthy o = false → o = o1).
Proof.
  assert (∀ v, truthy v = false → targetGuid v = "__this__") as Hfalsy
    by (by intros []).
  split_and!; [done| |].
  - intros Hreserved v w Hv Hw. rewrite (Hfalsy v Hv).
    destruct w; try done. apply Hreserved.
  - intros cs h0 o1 o2 m1 m2 Ho1 Ho2.
    destruct (run_spec cs h0) as (this & h & Hrun & Hwf & _).
    exists this, h. split; [done|]. intros Hnone.
    destruct (add_spec this o1 m1 h Hwf) as (this1 & h1 & Hadd1 & Hwf1 & _).
    pose proof Hadd1 as Hadd1'. rewrite add_new in Hadd1'
      by by rewrite Hfalsy.
    injection Hadd1' as <- <-.
    destruct (add_spec _ o2 m2 _ Hwf1) as (this2 & h2 & Hadd2 & Hwf2 & _).
    pose proof Hadd2 as Hadd2'.
    rewrite (add_known _ _ _ _ (length (Sets h))
               {| target := o1; isTargetSet := true; items := [m1] |})
      in Hadd2'; simpl.
    2: { rewrite (Hfalsy o2 Ho2), (Hfalsy o1 Ho1). apply lookup_insert_eq. }
    2: { by apply list_lookup_middle. }
    injection Hadd2' as <- <-.
    set (s := Set_add m2 {| target := o1; isTargetSet := true;
                            items := [m1] |}) in *.
    assert (<[length (Sets h) := s]>
              (Sets h ++ [{| target := o1; isTargetSet := true;
                             items := [m1] |}]) !! length (Sets h) = Some s)
      as Hs.
    { apply list_lookup_insert_eq. rewrite length_app. simpl. lia. }
    assert (sets (with_membersCacheIsValid false
                    (with_membersCacheIsValid false
                       (with_targets (targets this + 1)
                          (with_sets (insert (targetGuid o1)
                                        (length (Sets h))) this))))
            !! "__this__" = Some (length (Sets h))) as Hl.
    { simpl. rewrite (Hfalsy o1 Ho1). apply lookup_insert_eq. }
    eexists _, _, (length (Sets h)), s, _.
    split_and!.
    + simpl. unfold mbind, M_bind. rewrite Hadd1, Hadd2. done.
    + done.
    + done.
    + unfold s. by rewrite target_Set_add.
    + by apply members_eq.
    + apply elem_of_current_members. eexists _, _, s.
      split_and!; [done..|unfold s; by rewrite isTargetSet_Set_add|
                   unfold s; by rewrite target_Set_add|].
      apply elem_of_Set_add. right. by left.
    + apply elem_of_current_members. eexists _, _, s.
      split_and!; [done..|unfold s; by rewrite isTargetSet_Set_add|
                   unfold s; by rewrite target_Set_add|].
      apply elem_of_Set_add. by left.
    + intros o m (key & l' & s' & Hl' & Hs' & _ & Ho & _)%elem_of_current_members
        Hfo.
      destruct (wf_sets _ _ _ Hwf2 _ _ Hl') as (s'' & Hs'' & _ & _ & _ & Hkey).
      rewrite Hs' in Hs''. injection Hs'' as <-.
      rewrite Ho, (Hfalsy o Hfo) in Hkey. subst key.
      rewrite Hl in Hl'. injection Hl' as <-.
      cbn [Sets] in Hs'. rewrite Hs in Hs'. injection Hs' as <-.
      rewrite <- Ho. unfold s. by rewrite target_Set_add.
Qed.

(** C2, as amended.  [getMembers] hands out the one array the observer
    set keeps for its cache: created on the first call, the same one ever
    after, and never a set of methods.  [add] and [remove] leave every
    array as it is, and so does [getMembers] while the cache is valid;
    when it rebuilds, it refills that same array in place with the current
    members and touches no other array. *)
Theorem getMembers_reuses_one_array (cs : list call) (h0 : heap) :
  ∃ this h,
    run cs h0 = Some (this, h) ∧
    (∀ t m, ∃ this' h',
       add this t m h = Some (this', h') ∧
       Arrays h' = Arrays h ∧ _members this' = _members this) ∧
    (∀ t m, ∃ b this' h',
       remove this t m h = Some ((b, this'), h') ∧
       Arrays h' = Arrays h ∧ _members this' = _members this) ∧
    ∃ a this' h' ms,
      getMembers this h = Some ((Some a, this'), h') ∧
      _members this' = Some a ∧
      (_members this = Some a ∨
       (_members this = None ∧ a = length (Arrays h))) ∧
      (_membersCacheIsValid this = true → h' = h) ∧
      (∀ a' : loc, a' ≠ a → Arrays h' !! a' = Arrays h !! a') ∧
      Arrays h' !! a = Some ms ∧
      NoDup ms ∧ (∀ om, om ∈ ms ↔ in_mapping this h om).
Proof.
  destruct (run_spec cs h0) as (this & h & Hrun & Hwf & _).
  exists this, h. split_and!; [done| | |].
  - intros t m.
    destruct (add_spec this t m h Hwf) as (this' & h' & ? & _ & _ & ? & ? & _).
    by exists this', h'.
  - intros t m.
    destruct (remove_spec this t m h Hwf)
      as (b & this' & h' & ? & _ & _ & ? & ? & _).
    by exists b, this', h'.
  - destruct (getMembers_spec this h Hwf)
      as (a & this' & h' & Hget & _ & _ & _ & _ & _ & Ha & _ & Harr & Hor &
          Hvalid & Hother).
    exists a, this', h', (current_members this h).
    split_and!; try done.
    + intros Hv. by destruct (Hvalid Hv).
    + by apply NoDup_current_members.
    + intros om. by apply members_in_mapping.
Qed.

(** What [remove] returns: YES exactly when the target has a set, whether
    or not the method was in it. *)
Lemma remove_returns_YES_iff_target_known
    (cs : list call) (h0 : heap) (t : value) (m : method) :
  ∃ this h b this' h',
    run cs h0 = Some (this, h) ∧
    remove this t m h = Some ((b, this'), h') ∧
    (b = true ↔ is_Some (sets this !! targetGuid t)) ∧
    (b = false → this' = this ∧ h' = h).
Proof.
  destruct (run_spec cs h0) as (this & h & Hrun & Hwf & _).
  destruct (remove_spec this t m h Hwf)
    as (b & this' & h' & Hrem & _ & _ & _ & _ & Hb & _).
  exists this, h, b, this', h'. split_and!; [done..|].
  intros ->. destruct (sets this !! targetGuid t) as [l|] eqn:Hl.
  - assert (false = true) by (apply Hb; eauto). done.
  - rewrite remove_unknown in Hrem by done. by injection Hrem as <- <-.
Qed.

End Facts.

(** ** The scenarios of the specification

    Owners [X] and [Y] are the objects 1 and 2, the handlers [f], [g] and
    [h] the functions 10, 11 and 12. *)

Example scenario_add :
  ∃ r hp,
    run example_guidFor [Add (JSRef 1%N) 10%N] empty_heap = Some (r, hp) ∧
    members r hp = Some [(JSRef 1%N, 10%N)] ∧ targets r = 1%Z.
Proof. eexists _, _. split_and!; vm_compute; reflexivity. Qed.

Example scenario_add_again :
  ∃ r hp,
    run example_guidFor [Add (JSRef 1%N) 10%N; Add (JSRef 1%N) 10%N]
      empty_heap = Some (r, hp) ∧
    members r hp = Some [(JSRef 1%N, 10%N)] ∧ targets r = 1%Z.
Proof. eexists _, _. split_and!; vm_compute; reflexivity. Qed.

Example scenario_second_handler :
  ∃ r hp,
    run example_guidFor
      [Add (JSRef 1%N) 10%N; Add (JSRef 1%N) 10%N; Add (JSRef 1%N) 11%N]
      empty_heap = Some (r, hp) ∧
    members r hp = Some [(JSRef 1%N, 11%N); (JSRef 1%N, 10%N)] ∧
    targets r = 1%Z.
Proof. eexists _, _. split_and!; vm_compute; reflexivity. Qed.

Example scenario_remove :
  ∃ r hp r' hp',
    run example_guidFor
      [Add (JSRef 1%N) 10%N; Add (JSRef 1%N) 10%N; Add (JSRef 1%N) 11%N]
      empty_heap = Some (r, hp) ∧
    remove example_guidFor r (JSRef 1%N) 10%N hp = Some ((true, r'), hp') ∧
    members r' hp' = Some [(JSRef 1%N, 11%N)] ∧ targets r' = 1%Z.
Proof.
  eexists _, _, _, _. split; [vm_compute; reflexivity|].
  split_and!; vm_compute; reflexivity.
Qed.

Example scenario_remove_last :
  ∃ r hp r' hp',
    run example_guidFor
      [Add (JSRef 1%N) 10%N; Add (JSRef 1%N) 11%N; Remove (JSRef 1%N) 10%N]
      empty_heap = Some (r, hp) ∧
    remove example_guidFor r (JSRef 1%N) 11%N hp = Some ((true, r'), hp') ∧
    members r' hp' = Some [] ∧ targets r' = 0%Z.
Proof.
  eexists _, _, _, _. split; [vm_compute; reflexivity|].
  split_and!; vm_compute; reflexivity.
Qed.

Example scenario_clone :
  ∃ r hp c hp1 r' hp2,
    run example_guidFor [Add (JSRef 1%N) 10%N; Add (JSRef 2%N) 12%N]
      empty_heap = Some (r, hp) ∧
    clone r hp = Some (c, hp1) ∧
    remove example_guidFor r (JSRef 1%N) 10%N hp1 = Some ((true, r'), hp2) ∧
    members r' hp2 = Some [(JSRef 2%N, 12%N)] ∧
    members c hp2 = Some [(JSRef 1%N, 10%N); (JSRef 2%N, 12%N)].
Proof.
  eexists _, _, _, _, _, _. split; [vm_compute; reflexivity|].
  split; [vm_compute; reflexivity|]. split; [vm_compute; reflexivity|].
  split_and!; vm_compute; reflexivity.
Qed.

(** ** The claims at concrete inputs *)

(** C1.  The code at the failing input: the target has a set that holds
    only another method; [remove] of a method that was never added
    answers YES, removes nothing and marks the cache invalid. *)
Theorem remove_of_absent_method_returns_YES :
  ∃ this h this' h',
    run example_guidFor [Add (JSRef 1%N) 10%N; GetMembers] empty_heap
    = Some (this, h) ∧
    _membersCacheIsValid this = true ∧
    members this h = Some [(JSRef 1%N, 10%N)] ∧
    remove example_guidFor this (JSRef 1%N) 11%N h = Some ((true, this'), h') ∧
    sets this' = sets this ∧ Sets h' = Sets h ∧
    members this' h' = Some [(JSRef 1%N, 10%N)] ∧
    _membersCacheIsValid this' = false.
Proof.
  eexists _, _, _, _. split; [vm_compute; reflexivity|].
  split; [reflexivity|]. split; [vm_compute; reflexivity|].
  split; [vm_compute; reflexivity|].
  split_and!; vm_compute; reflexivity.
Qed.

(** C2, the counterexample.  The array [getMembers] returned holds
    [[(1, 10)]]; after one more [add] and one more [getMembers] the very
    same array holds two members. *)
Lemma returned_array_is_overwritten :
  ∃ this h s this1 h1 this2 h2,
    run example_guidFor [Add (JSRef 1%N) 10%N] empty_heap = Some (this, h) ∧
    getMembers this h = Some ((Some s, this1), h1) ∧
    Arrays h1 !! s = Some [(JSRef 1%N, 10%N)] ∧
    for_each (do_call example_guidFor) [Add (JSRef 1%N) 11%N; GetMembers]
      this1 h1 = Some (this2, h2) ∧
    Arrays h2 !! s = Some [(JSRef 1%N, 11%N); (JSRef 1%N, 10%N)].
Proof.
  eexists _, _, _, _, _, _, _. split; [vm_compute; reflexivity|].
  split; [vm_compute; reflexivity|]. split; [reflexivity|].
  split; [vm_compute; reflexivity|]. reflexivity.
Qed.

Lemma example_guidFor_reserved (r : ref) : example_guidFor r ≠ "__this__".
Proof. unfold example_guidFor. simpl. discriminate. Qed.

Lemma pretty_N_inj (r r' : N) : pretty r = pretty r' → r = r'.
Proof. apply (inj pretty). Qed.

Lemma example_guidFor_inj (r r' : ref) :
  example_guidFor r = example_guidFor r' → r = r'.
Proof.
  unfold example_guidFor. simpl. intros [= Heq]. by apply pretty_N_inj.
Qed.

(** C7, the counterexample.  The observer set holds the method 10 under
    [null]; the pair of [undefined] and 10 is no member, yet [add] and
    [remove] with [undefined] take the member away and bring [targets]
    from 1 to 0. *)
Lemma round_trip_across_falsy_targets :
  ∃ this h this1 h1 this2 h2,
    run example_guidFor [Add JSNull 10%N] empty_heap = Some (this, h) ∧
    members this h = Some [(JSNull, 10%N)] ∧
    ((JSUndefined, 10%N) ∉ [(JSNull, 10%N)]) ∧
    targets this = 1%Z ∧
    add example_guidFor this JSUndefined 10%N h = Some (this1, h1) ∧
    remove example_guidFor this1 JSUndefined 10%N h1
    = Some ((true, this2), h2) ∧
    members this2 h2 = Some [] ∧
    targets this2 = 0%Z.
Proof.
  eexists _, _, _, _, _, _. split; [vm_compute; reflexivity|].
  split; [vm_compute; reflexivity|].
  split; [by intros [= ]%list_elem_of_singleton|].
  split; [reflexivity|]. split; [vm_compute; reflexivity|].
  split; [vm_compute; reflexivity|].
  split; vm_compute; reflexivity.
Qed.

(** C7 at an observer set that holds the method under another object and
    under [null], and a pair with a third object. *)
Lemma add_then_remove_round_trip_witness :
  ∃ this h this1 h1 this2 h2,
    run example_guidFor [Add (JSRef 1%N) 10%N; Add JSNull 10%N] empty_heap
    = Some (this, h) ∧
    add example_guidFor this (JSRef 2%N) 10%N h = Some (this1, h1) ∧
    remove example_guidFor this1 (JSRef 2%N) 10%N h1
    = Some ((true, this2), h2) ∧
    members this2 h2 = members this h ∧
    targets this2 = targets this.
Proof.
  destruct (add_then_remove_round_trip example_guidFor
              [Add (JSRef 1%N) 10%N; Add JSNull 10%N] empty_heap
              (JSRef 2%N) 10%N)
    as (this & h & ms & Hrun & Hms & _ & Himp).
  destruct Himp as (this1 & h1 & this2 & h2 & Hadd & Hrem & Hms' & Ht).
  { apply example_guidFor_inj. }
  { apply example_guidFor_reserved. }
  { reflexivity. }
  { intros Hin. vm_compute in Hrun. injection Hrun as <- <-.
    vm_compute in Hms. injection Hms as <-.
    repeat (apply elem_of_cons in Hin as [[= ]|Hin]).
    by apply elem_of_nil in Hin. }
  exists this, h, this1, h1, this2, h2. rewrite Hms, Hms'.
  split_and!; done.
Defined.

(** C8 at a new observer set, with [undefined] registered before
    [null]. *)
Lemma falsy_targets_share_one_set_witness :
  targetGuid example_guidFor (JSRef 7%N) ≠ targetGuid example_guidFor JSNull ∧
  ∃ this' h' ms,
    for_each (do_call example_guidFor)
      [Add JSUndefined 1%N; Add JSNull 2%N] create empty_heap
    = Some (this', h') ∧
    members this' h' = Some ms ∧
    (JSUndefined, 1%N) ∈ ms ∧ (JSUndefined, 2%N) ∈ ms.
Proof.
  destruct (falsy_targets_share_one_set example_guidFor) as (_ & H2 & H3).
  split.
  - apply H2; [apply example_guidFor_reserved|reflexivity|reflexivity].
  - destruct (H3 [] empty_heap JSUndefined JSNull 1%N 2%N eq_refl eq_refl)
      as (this & h & Hrun & Himp).
    injection Hrun as <- <-.
    destruct (Himp eq_refl) as (this' & h' & l & s & ms & ? & _ & _ & _ &
                                ? & ? & ? & _).
    by exists this', h', ms.
Defined.

End ObserverSetFacts.

(** * Properties of the other methods of [SC.String] *)
Module CaseFacts.
Import SCStringCase.

Ltac each_char c :=
  destruct c as [[] [] [] [] [] [] [] []]; vm_compute; try done.

Lemma toUpperCase_twice c :
  char_toUpperCase (char_toUpperCase c) = char_toUpperCase c.
Proof. each_char c. Qed.

Lemma toLowerCase_twice c :
  char_toLowerCase (char_toLowerCase c) = char_toLowerCase c.
Proof. each_char c. Qed.

Lemma toUpperCase_toLowerCase c :
  char_toUpperCase (char_toLowerCase c) = char_toUpperCase c.
Proof. each_char c. Qed.

Lemma toLowerCase_toUpperCase c :
  char_toLowerCase (char_toUpperCase c) = char_toLowerCase c.
Proof. each_char c. Qed.

Lemma is_separator_toUpperCase c :
  is_separator (char_toUpperCase c) = is_separator c.
Proof. each_char c. Qed.

Lemma is_separator_toLowerCase c :
  is_separator (char_toLowerCase c) = is_separator c.
Proof. each_char c. Qed.

Lemma is_upper_toLowerCase c : is_upper (char_toLowerCase c) = false.
Proof. each_char c. Qed.

Lemma toLowerCase_not_upper c :
  is_upper c = false → char_toLowerCase c = c.
Proof. unfold char_toLowerCase. by intros ->. Qed.

Lemma to_dash_twice c : to_dash (to_dash c) = to_dash c.
Proof. each_char c. Qed.

Lemma to_space_twice c : to_space (to_space c) = to_space c.
Proof. each_char c. Qed.

Lemma to_space_to_dash c : to_space (to_dash c) = to_space c.
Proof. each_char c. Qed.

Lemma to_dash_to_space c : to_dash (to_space c) = to_dash c.
Proof. each_char c. Qed.

Lemma is_upper_to_dash c : is_upper (to_dash c) = is_upper c.
Proof. each_char c. Qed.

Lemma is_upper_to_space c : is_upper (to_space c) = is_upper c.
Proof. each_char c. Qed.

Lemma to_dash_class c : is_space_or_underscore (to_dash c) = false.
Proof. each_char c. Qed.

Lemma to_space_class c : is_dash_or_underscore (to_space c) = false.
Proof. each_char c. Qed.

(** ** Strings *)

Lemma string_forall_app p (s1 s2 : string) :
  string_forall p (s1 +:+ s2) = string_forall p s1 && string_forall p s2.
Proof.
  induction s1 as [|c s1 IH]; [done|].
  change (p c && string_forall p (s1 +:+ s2)
          = p c && string_forall p s1 && string_forall p s2).
  by rewrite IH, andb_assoc.
Qed.

Lemma string_map_map f g (s : string) :
  string_map f (string_map g s) = string_map (λ c, f (g c)) s.
Proof. induction s as [|c s IH]; simpl; [done|by rewrite IH]. Qed.

Lemma string_map_ext f g (s : string) :
  (∀ c, f c = g c) → string_map f s = string_map g s.
Proof. intros Hfg. induction s as [|c s IH]; simpl; [done|by rewrite IH, Hfg]. Qed.

Lemma string_map_id f p (s : string) :
  (∀ c, p c = true → f c = c) →
  string_forall p s = true → string_map f s = s.
Proof.
  intros Hf. induction s as [|c s IH]; simpl; [done|].
  intros [Hc Hs]%andb_prop. by rewrite Hf, IH.
Qed.

Lemma string_forall_map p f (s : string) :
  string_forall p (string_map f s) = string_forall (λ c, p (f c)) s.
Proof. induction s as [|c s IH]; simpl; [done|by rewrite IH]. Qed.

Lemma string_forall_impl (p q : ascii → bool) (s : string) :
  (∀ c, p c = true → q c = true) →
  string_forall p s = true → string_forall q s = true.
Proof.
  intros Hpq. induction s as [|c s IH]; simpl; [done|].
  intros [Hc Hs]%andb_prop. by rewrite Hpq, IH.
Qed.

Lemma string_forall_all p (s : string) :
  (∀ c, p c = true) → string_forall p s = true.
Proof. intros Hp. induction s as [|c s IH]; simpl; [done|by rewrite Hp]. Qed.

Lemma string_forall_map_first p f (s : string) :
  (∀ c, p (f c) = p c) →
  string_forall p (map_first f s) = string_forall p s.
Proof. intros Hf. destruct s as [|c s]; simpl; [done|by rewrite Hf]. Qed.

Lemma map_first_map_first f g (s : string) :
  map_first f (map_first g s) = map_first (λ c, f (g c)) s.
Proof. by destruct s. Qed.

Lemma map_first_ext f g (s : string) :
  (∀ c, f c = g c) → map_first f s = map_first g s.
Proof. intros Hfg. destruct s; simpl; [done|by rewrite Hfg]. Qed.

(** ** Global replacement *)

Lemma replace_global_forall (q0 q : ascii → bool) (m : matcher) :
  (∀ b s len out, m b s = Some (len, out) → string_forall q out = true) →
  (∀ b c s, m b (String c s) = None → q0 c = true → q c = true) →
  ∀ s k b, string_forall q0 s = true →
           string_forall q (replace_global m s k b) = true.
Proof.
  intros Hout Hcopy. induction s as [|c s IH]; intros k b Hs; [done|].
  simpl in Hs. apply andb_prop in Hs as [Hc Hs]. simpl.
  destruct k as [|k]; [|by apply IH].
  destruct (m b (String c s)) as [[len out]|] eqn:Hm.
  - rewrite string_forall_app, (Hout _ _ _ _ Hm). by apply IH.
  - simpl. rewrite (Hcopy _ _ _ Hm Hc). by apply IH.
Qed.

Lemma replace_global_id (q : ascii → bool) (m : matcher) :
  (∀ b s, string_forall q s = true → m b s = None) →
  ∀ s b, string_forall q s = true → replace_global m s O b = s.
Proof.
  intros Hnone. induction s as [|c s IH]; intros b Hs; [done|].
  simpl. rewrite (Hnone _ _ Hs). simpl in Hs.
  apply andb_prop in Hs as [_ Hs]. by rewrite IH.
Qed.

Lemma replace_class (class : ascii → bool) (o : ascii) (s : string) b :
  replace_global (class_matcher class (String o EmptyString)) s O b
  = string_map (λ c, if class c then o else c) s.
Proof.
  revert b. induction s as [|c s IH]; intros b; [done|].
  simpl. destruct (class c); simpl; by rewrite IH.
Qed.

(** ** The methods by their effect *)

Lemma capitalize_eq (s : string) :
  capitalize s = map_first char_toUpperCase s.
Proof. by destruct s. Qed.

Lemma camelize_eq (s : string) :
  camelize s = map_first char_toLowerCase (replace camel_matcher s).
Proof.
  unfold camelize. fold camel_matcher.
  destruct (replace camel_matcher s) as [|c r].
  - by destruct (decide _).
  - cbn [charAt0 slice1 map_first]. destruct (decide _) as [Hne|Heq]; [done|].
    apply dec_stable in Heq. by injection Heq as <-.
Qed.

Lemma classify_eq (s : string) :
  classify s = map_first char_toUpperCase (replace camel_matcher s).
Proof.
  unfold classify. fold camel_matcher.
  destruct (replace camel_matcher s) as [|c r].
  - by destruct (decide _).
  - cbn [charAt0 slice1 map_first]. destruct (decide _) as [Hne|Heq]; [done|].
    apply dec_stable in Heq. by injection Heq as <-.
Qed.

Lemma dasherize_eq (s : string) :
  dasherize s = string_map to_dash (decamelize s).
Proof. unfold dasherize, replace. by rewrite replace_class. Qed.

Lemma humanize_eq (s : string) :
  humanize s = string_map to_space (decamelize s).
Proof. unfold humanize, replace. by rewrite replace_class. Qed.

Lemma camel_matcher_separator b s len out :
  camel_matcher b s = Some (len, out) →
  free_of is_separator out = true.
Proof.
  unfold camel_matcher, titleize_matcher, STRING_TITLEIZE_REGEXP.
  destruct s as [|c s]; [done|]. destruct (is_separator c); [|done].
  destruct s as [|d s]; [by intros [= <- <-]|].
  destruct (is_separator d) eqn:Hd; intros [= <- <-]; [done|].
  unfold free_of. simpl. by rewrite is_separator_toUpperCase, Hd.
Qed.

Lemma camel_matcher_none b c s :
  camel_matcher b (String c s) = None → is_separator c = false.
Proof.
  unfold camel_matcher, titleize_matcher, STRING_TITLEIZE_REGEXP.
  by destruct (is_separator c).
Qed.

Lemma camel_matcher_free b s :
  free_of is_separator s = true → camel_matcher b s = None.
Proof.
  unfold camel_matcher, titleize_matcher, STRING_TITLEIZE_REGEXP.
  destruct s as [|c s]; [done|]. unfold free_of. simpl.
  by destruct (is_separator c).
Qed.

Lemma replace_camel_free (s : string) :
  free_of is_separator (replace camel_matcher s) = true.
Proof.
  apply (replace_global_forall (λ _, true)).
  - apply camel_matcher_separator.
  - intros b c s' Hm _. by rewrite (camel_matcher_none _ _ _ Hm).
  - by apply string_forall_all.
Qed.

Lemma hump_matcher_free b s :
  free_of is_upper s = true → hump_matcher b s = None.
Proof.
  destruct s as [|a [|c s]]; try done. unfold free_of. simpl.
  destruct (is_upper c); [|by rewrite andb_false_r].
  by rewrite andb_false_r.
Qed.

Lemma decamelize_free (s : string) : free_of is_upper (decamelize s) = true.
Proof.
  unfold decamelize, toLowerCase, free_of. rewrite string_forall_map.
  apply string_forall_all. intros c. by rewrite is_upper_toLowerCase.
Qed.

Lemma decamelize_id (s : string) :
  free_of is_upper s = true → decamelize s = s.
Proof.
  intros Hs. unfold decamelize, replace.
  rewrite (replace_global_id _ _ hump_matcher_free) by done.
  apply (string_map_id _ (λ c, negb (is_upper c))); [|done].
  intros c Hc%negb_true_iff. by apply toLowerCase_not_upper.
Qed.

Lemma camelize_free (s : string) :
  free_of is_separator (camelize s) = true.
Proof.
  rewrite camelize_eq. unfold free_of.
  rewrite string_forall_map_first; [apply replace_camel_free|].
  intros c. by rewrite is_separator_toLowerCase.
Qed.

Lemma dasherize_free_upper (s : string) :
  free_of is_upper (dasherize s) = true.
Proof.
  rewrite dasherize_eq. unfold free_of. rewrite string_forall_map.
  erewrite string_forall_impl; [done| |apply (decamelize_free s)].
  intros c. by rewrite is_upper_to_dash.
Qed.

Lemma humanize_free_upper (s : string) :
  free_of is_upper (humanize s) = true.
Proof.
  rewrite humanize_eq. unfold free_of. rewrite string_forall_map.
  erewrite string_forall_impl; [done| |apply (decamelize_free s)].
  intros c. by rewrite is_upper_to_space.
Qed.

(** X1.  [camelize] leaves no separator behind: the result of an ASCII
    string has no white space, bar, dash or underscore. *)
Theorem camelize_leaves_no_separator (s : string) :
  ascii_text s = true → free_of is_separator (camelize s) = true.
Proof.
  intros _. apply camelize_free.
Qed.

Lemma camelize_leaves_no_separator_witness :
  free_of is_separator (camelize "my favorite-items_a|b") = true.
Proof. by apply camelize_leaves_no_separator. Defined.

(** X2.  [camelize] is idempotent on ASCII strings. *)
Theorem camelize_idempotent (s : string) :
  ascii_text s = true → camelize (camelize s) = camelize s.
Proof.
  intros _. rewrite (camelize_eq (camelize s)). unfold replace.
  rewrite (replace_global_id _ _ camel_matcher_free) by apply camelize_free.
  rewrite camelize_eq, map_first_map_first.
  apply map_first_ext, toLowerCase_twice.
Qed.

Lemma camelize_idempotent_witness :
  camelize (camelize "css-class-name") = camelize "css-class-name".
Proof. by apply camelize_idempotent. Defined.

(** X3.  [classify] is [camelize] followed by [capitalize], as its
    documentation says; so its result has no separator either. *)
Theorem classify_is_capitalized_camelize (s : string) :
  ascii_text s = true →
  classify s = capitalize (camelize s) ∧
  free_of is_separator (classify s) = true.
Proof.
  intros _. rewrite classify_eq, capitalize_eq, camelize_eq.
  rewrite map_first_map_first. split.
  - apply map_first_ext. intros c. by rewrite toUpperCase_toLowerCase.
  - unfold free_of.
    rewrite string_forall_map_first; [apply replace_camel_free|].
    intros c. by rewrite is_separator_toUpperCase.
Qed.

Lemma classify_is_capitalized_camelize_witness :
  classify "action_name" = capitalize (camelize "action_name") ∧
  free_of is_separator (classify "action_name") = true.
Proof. by apply classify_is_capitalized_camelize. Defined.

(** X4.  The result of [decamelize] has no capital letter, and [decamelize]
    is idempotent. *)
Theorem decamelize_lower_case (s : string) :
  ascii_text s = true →
  free_of is_upper (decamelize s) = true ∧
  decamelize (decamelize s) = decamelize s.
Proof.
  intros _. split; [apply decamelize_free|].
  apply decamelize_id, decamelize_free.
Qed.

Lemma decamelize_lower_case_witness :
  free_of is_upper (decamelize "innerHTML") = true ∧
  decamelize (decamelize "innerHTML") = decamelize "innerHTML".
Proof. by apply decamelize_lower_case. Defined.

(** X5.  The result of [dasherize] has no capital letter, space or
    underscore, and [dasherize] is idempotent. *)
Theorem dasherize_dashes (s : string) :
  ascii_text s = true →
  free_of is_upper (dasherize s) = true ∧
  free_of is_space_or_underscore (dasherize s) = true ∧
  dasherize (dasherize s) = dasherize s.
Proof.
  intros _. pose proof (dasherize_free_upper s) as Hup.
  split_and!; [done| |].
  - rewrite dasherize_eq. unfold free_of. rewrite string_forall_map.
    apply string_forall_all. intros c. by rewrite to_dash_class.
  - rewrite (dasherize_eq (dasherize s)), decamelize_id by done.
    rewrite dasherize_eq, string_map_map.
    apply string_map_ext, to_dash_twice.
Qed.

Lemma dasherize_dashes_witness :
  free_of is_upper (dasherize "my favoriteItems") = true ∧
  free_of is_space_or_underscore (dasherize "my favoriteItems") = true ∧
  dasherize (dasherize "my favoriteItems") = dasherize "my favoriteItems".
Proof. by apply dasherize_dashes. Defined.

(** X6.  The result of [humanize] has no capital letter, dash or
    underscore, and [humanize] is idempotent. *)
Theorem humanize_spaces (s : string) :
  ascii_text s = true →
  free_of is_upper (humanize s) = true ∧
  free_of is_dash_or_underscore (humanize s) = true ∧
  humanize (humanize s) = humanize s.
Proof.
  intros _. pose proof (humanize_free_upper s) as Hup.
  split_and!; [done| |].
  - rewrite humanize_eq. unfold free_of. rewrite string_forall_map.
    apply string_forall_all. intros c. by rewrite to_space_class.
  - rewrite (humanize_eq (humanize s)), decamelize_id by done.
    rewrite humanize_eq, string_map_map.
    apply string_map_ext, to_space_twice.
Qed.

Lemma humanize_spaces_witness :
  free_of is_upper (humanize "css-className") = true ∧
  free_of is_dash_or_underscore (humanize "css-className") = true ∧
  humanize (humanize "css-className") = humanize "css-className".
Proof. by apply humanize_spaces. Defined.

(** X7.  [humanize] of the result of [dasherize] is [humanize] of the
    receiver, and [dasherize] of the result of [humanize] is [dasherize]
    of the receiver. *)
Theorem humanize_dasherize (s : string) :
  ascii_text s = true →
  humanize (dasherize s) = humanize s ∧
  dasherize (humanize s) = dasherize s.
Proof.
  intros _.
  pose proof (dasherize_free_upper s) as Hd.
  pose proof (humanize_free_upper s) as Hh.
  split.
  - rewrite (humanize_eq (dasherize s)), decamelize_id by done.
    rewrite dasherize_eq, humanize_eq, string_map_map.
    apply string_map_ext, to_space_to_dash.
  - rewrite (dasherize_eq (humanize s)), decamelize_id by done.
    rewrite dasherize_eq, humanize_eq, string_map_map.
    apply string_map_ext, to_dash_to_space.
Qed.

Lemma humanize_dasherize_witness :
  humanize (dasherize "action_name here") = humanize "action_name here" ∧
  dasherize (humanize "action_name here") = dasherize "action_name here".
Proof. by apply humanize_dasherize. Defined.

(** ** [capitalizeEach] and [titleize] *)

Lemma is_lower_toUpperCase c : is_lower (char_toUpperCase c) = false.
Proof. each_char c. Qed.

Lemma is_lower_separator c : is_separator c = true → is_lower c = false.
Proof. each_char c. Qed.

Lemma string_ind2 (P : string → Prop) :
  P EmptyString →
  (∀ c, P (String c EmptyString)) →
  (∀ c d s, P s → P (String d s) → P (String c (String d s))) →
  ∀ s, P s.
Proof.
  intros H0 H1 H2 s.
  enough (P s ∧ ∀ c, P (String c s)) by tauto.
  induction s as [|d s [IH1 IH2]]; [done|]. split; [done|].
  intros c. by apply H2.
Qed.

Lemma string_map_app f (s1 s2 : string) :
  string_map f (s1 +:+ s2) = string_map f s1 +:+ string_map f s2.
Proof.
  induction s1 as [|c s1 IH]; [done|].
  change (String (f c) (string_map f (s1 +:+ s2))
          = String (f c) (string_map f s1 +:+ string_map f s2)).
  by rewrite IH.
Qed.

(** One step of [replace(SC.STRING_TITLEIZE_REGEXP, fn)]. *)
Lemma replace_titleize_step fn c (s : string) b :
  replace_global (titleize_matcher fn) (String c s) O b =
  if is_separator c then
    match s with
    | String d s' =>
        if is_separator d
        then fn (String c EmptyString) (String c EmptyString) EmptyString
             +:+ replace_global (titleize_matcher fn) s O false
        else fn (String c (String d EmptyString)) (String c EmptyString)
                (String d EmptyString)
             +:+ replace_global (titleize_matcher fn) s' O false
    | EmptyString =>
        fn (String c EmptyString) (String c EmptyString) EmptyString
        +:+ EmptyString
    end
  else String c (replace_global (titleize_matcher fn) s O false).
Proof.
  simpl. unfold titleize_matcher, STRING_TITLEIZE_REGEXP.
  destruct (is_separator c); [|done].
  destruct s as [|d s]; [done|]. by destruct (is_separator d).
Qed.

Section Words.
Variable fn : string → string → string → string.
Variable g : ascii → ascii.
Hypothesis fn_alone : ∀ c,
  fn (String c EmptyString) (String c EmptyString) EmptyString
  = String (g c) EmptyString.
Hypothesis fn_pair : ∀ c d,
  fn (String c (String d EmptyString)) (String c EmptyString)
     (String d EmptyString)
  = String (g c) (String (char_toUpperCase d) EmptyString).
Hypothesis g_separator : ∀ c,
  is_separator c = true → is_separator (g c) = true.

Lemma words_capitalized_from_weaken b (s : string) :
  words_capitalized_from b s = true →
  words_capitalized_from false s = true.
Proof.
  destruct s as [|c s]; [done|]. simpl.
  by intros [_ ->]%andb_prop.
Qed.

Lemma replace_words_capitalized (s : string) : ∀ b,
  words_capitalized_from (negb (starts_with is_lower s))
    (replace_global (titleize_matcher fn) s O b) = true.
Proof.
  induction s as [|c|c d s IH1 IH2] using string_ind2; intros b.
  - done.
  - rewrite replace_titleize_step.
    destruct (is_separator c) eqn:Hc.
    + rewrite fn_alone. simpl.
      by rewrite (is_lower_separator (g c)), andb_false_r by auto.
    + simpl. by destruct (is_lower c).
  - rewrite replace_titleize_step.
    destruct (is_separator c) eqn:Hc; [destruct (is_separator d) eqn:Hd|].
    + rewrite fn_alone.
      change (words_capitalized_from (negb (is_lower c))
                (String (g c) (replace_global (titleize_matcher fn)
                                 (String d s) O false)) = true).
      simpl. rewrite (is_lower_separator (g c)), andb_false_r by auto.
      rewrite g_separator by done. simpl.
      specialize (IH2 false). simpl in IH2.
      by rewrite (is_lower_separator d) in IH2.
    + rewrite fn_pair.
      change (words_capitalized_from (negb (is_lower c))
                (String (g c) (String (char_toUpperCase d)
                   (replace_global (titleize_matcher fn) s O false)))
              = true).
      simpl. rewrite (is_lower_separator (g c)), andb_false_r by auto.
      rewrite is_lower_toUpperCase, andb_false_r. simpl.
      rewrite is_separator_toUpperCase, Hd.
      eapply words_capitalized_from_weaken, IH1.
    + change (words_capitalized_from (negb (is_lower c))
                (String c (replace_global (titleize_matcher fn)
                             (String d s) O false)) = true).
      cbn [words_capitalized_from]. rewrite Hc.
      rewrite (words_capitalized_from_weaken _ _ (IH2 false)).
      by destruct (is_lower c).
Qed.

Lemma replace_words_case (s : string) : ∀ b,
  (∀ c, g c = c) →
  toLowerCase (replace_global (titleize_matcher fn) s O b) = toLowerCase s.
Proof.
  intros b Hg. revert b.
  induction s as [|c|c d s IH1 IH2] using string_ind2; intros b.
  - done.
  - rewrite replace_titleize_step.
    destruct (is_separator c); [|done]. by rewrite fn_alone, Hg.
  - rewrite replace_titleize_step.
    destruct (is_separator c); [destruct (is_separator d)|].
    + rewrite fn_alone, Hg.
      change (toLowerCase (String c (replace_global (titleize_matcher fn)
                                       (String d s) O false))
              = toLowerCase (String c (String d s))).
      unfold toLowerCase in *. cbn [string_map]. f_equal.
      apply (IH2 false).
    + rewrite fn_pair, Hg.
      change (toLowerCase (String c (String (char_toUpperCase d)
                (replace_global (titleize_matcher fn) s O false)))
              = toLowerCase (String c (String d s))).
      unfold toLowerCase in *. cbn [string_map].
      by rewrite toLowerCase_toUpperCase, (IH1 false).
    + unfold toLowerCase in *. cbn [string_map]. f_equal.
      apply (IH2 false).
Qed.

Lemma replace_words_spaced (s : string) : ∀ b,
  (∀ c, g c = " "%char) →
  spaced (replace_global (titleize_matcher fn) s O b) = true.
Proof.
  intros b Hg.
  apply (replace_global_forall (λ _, true)); [| |by apply string_forall_all].
  - intros b' s' len out. unfold titleize_matcher, STRING_TITLEIZE_REGEXP.
    destruct s' as [|c s']; [done|]. destruct (is_separator c); [|done].
    destruct s' as [|d s']; [|destruct (is_separator d) eqn:Hd].
    + intros [= <- <-].
      change (String c EmptyString +:+ EmptyString)
        with (String c EmptyString).
      by rewrite fn_alone, Hg.
    + intros [= <- <-].
      change (String c EmptyString +:+ EmptyString)
        with (String c EmptyString).
      by rewrite fn_alone, Hg.
    + intros [= <- <-].
      change (String c EmptyString +:+ String d EmptyString)
        with (String c (String d EmptyString)).
      rewrite fn_pair, Hg. simpl.
      by rewrite is_separator_toUpperCase, Hd.
  - intros b' c s'. unfold titleize_matcher, STRING_TITLEIZE_REGEXP.
    by destruct (is_separator c).
Qed.
End Words.

Lemma words_capitalized_capitalize (s : string) b :
  words_capitalized_from b s = true →
  words_capitalized (capitalize s) = true.
Proof.
  rewrite capitalize_eq. destruct s as [|c s]; [done|].
  unfold words_capitalized. simpl. intros [_ Hs]%andb_prop.
  by rewrite is_lower_toUpperCase, is_separator_toUpperCase.
Qed.

Lemma toLowerCase_capitalize (s : string) :
  toLowerCase (capitalize s) = toLowerCase s.
Proof.
  rewrite capitalize_eq. destruct s as [|c s]; [done|].
  unfold toLowerCase. simpl. by rewrite toLowerCase_toUpperCase.
Qed.

(** X8.  [capitalizeEach] changes nothing but the case of letters, and in
    its result no word starts with a lower-case letter: neither the first
    character nor one behind a separator is one. *)
Theorem capitalizeEach_capitalizes_words (s : string) :
  ascii_text s = true →
  toLowerCase (capitalizeEach s) = toLowerCase s ∧
  words_capitalized (capitalizeEach s) = true.
Proof.
  intros _. unfold capitalizeEach, replace. split.
  - rewrite toLowerCase_capitalize.
    by apply (replace_words_case _ (λ c, c)).
  - eapply words_capitalized_capitalize.
    by apply (replace_words_capitalized _ (λ c, c)).
Qed.

Lemma capitalizeEach_capitalizes_words_witness :
  toLowerCase (capitalizeEach "my favorite-items") =
    toLowerCase "my favorite-items" ∧
  words_capitalized (capitalizeEach "my favorite-items") = true.
Proof. by apply capitalizeEach_capitalizes_words. Defined.

(** X9.  In the result of [titleize] every separator is a space, and no
    word starts with a lower-case letter. *)
Theorem titleize_spaces_and_capitals (s : string) :
  ascii_text s = true →
  spaced (titleize s) = true ∧ words_capitalized (titleize s) = true.
Proof.
  intros _. unfold titleize, replace. split.
  - rewrite capitalize_eq. unfold spaced.
    rewrite string_forall_map_first.
    + by apply (replace_words_spaced _ (λ _, " "%char)).
    + intros c. each_char c.
  - eapply words_capitalized_capitalize.
    by apply (replace_words_capitalized _ (λ _, " "%char)).
Qed.

Lemma titleize_spaces_and_capitals_witness :
  spaced (titleize "css-className_here") = true ∧
  words_capitalized (titleize "css-className_here") = true.
Proof. by apply titleize_spaces_and_capitals. Defined.

(** ** [trim] *)

Lemma append_assoc (s1 s2 s3 : string) :
  (s1 +:+ s2) +:+ s3 = s1 +:+ (s2 +:+ s3).
Proof.
  induction s1 as [|c s1 IH]; [done|].
  change (String c ((s1 +:+ s2) +:+ s3) = String c (s1 +:+ (s2 +:+ s3))).
  by rewrite IH.
Qed.

Lemma leading_spaces_all (s : string) :
  string_forall is_space s = true → leading_spaces s = String.length s.
Proof.
  induction s as [|c s IH]; simpl; [done|].
  intros [-> Hs]%andb_prop. by rewrite IH.
Qed.

Lemma leading_spaces_app (l t : string) :
  string_forall is_space l = true →
  leading_spaces (l +:+ t) = (String.length l + leading_spaces t)%nat.
Proof.
  induction l as [|c l IH]; [done|]. simpl.
  intros [Hc Hl]%andb_prop.
  change (leading_spaces (String c (l +:+ t))
          = S (String.length l + leading_spaces t)).
  simpl. by rewrite Hc, IH.
Qed.

Lemma leading_spaces_core (core r : string) :
  ends_with is_space core = false → core ≠ EmptyString →
  (leading_spaces (core +:+ r) < String.length core)%nat.
Proof.
  induction core as [|c core IH]; [done|]. intros Hend _.
  change (leading_spaces (String c (core +:+ r)) < S (String.length core))%nat.
  simpl. destruct (is_space c) eqn:Hc; [|lia].
  destruct core as [|d core]; [simpl in Hend; congruence|].
  apply Nat.succ_lt_mono with (n := leading_spaces (String d core +:+ r)), IH.
  - done.
  - done.
Qed.

Lemma ends_with_tail p c (s : string) :
  ends_with p (String c s) = false → ends_with p s = false.
Proof. by destruct s. Qed.

Lemma replace_global_skip_all (m : matcher) (s : string) k b :
  (String.length s ≤ k)%nat → replace_global m s k b = EmptyString.
Proof.
  revert k b. induction s as [|c s IH]; intros k b Hk; [done|].
  simpl in Hk. destruct k as [|k]; [lia|]. simpl. apply IH. lia.
Qed.

Lemma replace_global_skip (m : matcher) (p rest : string) :
  replace_global m (p +:+ rest) (String.length p) false
  = replace_global m rest O false.
Proof.
  induction p as [|c p IH]; [done|].
  change (replace_global m (String c (p +:+ rest)) (S (String.length p)) false
          = replace_global m rest O false).
  simpl. apply IH.
Qed.

(** Behind the start of the input, white space is removed only where it
    runs to the end. *)
Lemma trim_tail (core r : string) :
  ends_with is_space core = false → string_forall is_space r = true →
  replace_global trim_matcher (core +:+ r) O false = core.
Proof.
  intros Hend Hr. induction core as [|c core IH].
  - change (replace_global trim_matcher r O false = EmptyString).
    destruct r as [|c r]; [done|]. simpl. unfold trim_matcher.
    rewrite (leading_spaces_all (String c r)) by done. simpl.
    rewrite Nat.eqb_refl.
    change (replace_global trim_matcher r (String.length r) false
            = EmptyString).
    by apply replace_global_skip_all.
  - change (replace_global trim_matcher (String c (core +:+ r)) O false
            = String c core).
    pose proof (ends_with_tail _ _ _ Hend) as Hend'.
    simpl. unfold trim_matcher at 1. simpl.
    destruct (is_space c) eqn:Hc.
    + destruct core as [|d core]; [simpl in Hend; congruence|].
      pose proof (leading_spaces_core (String d core) r Hend' ltac:(done)).
      pose proof (FmtFacts.length_append (String d core) r).
      repeat match goal with
             | |- context [Nat.eqb ?a ?b] =>
                 destruct (Nat.eqb_spec a b); [lia|]
             end.
      by rewrite IH.
    + simpl. by rewrite IH.
Qed.

Lemma trim_parts (l core r : string) :
  string_forall is_space l = true → string_forall is_space r = true →
  trimmed core = true →
  trim (l +:+ core +:+ r) = core.
Proof.
  intros Hl Hr [Hstart Hend]%andb_prop.
  apply negb_true_iff in Hstart. apply negb_true_iff in Hend.
  unfold trim, replace. destruct l as [|c l].
  - change (replace_global trim_matcher (core +:+ r) O true = core).
    destruct core as [|d core].
    + change (replace_global trim_matcher r O true = EmptyString).
      destruct r as [|c r]; [done|]. simpl. unfold trim_matcher.
      rewrite (leading_spaces_all (String c r)) by done. simpl.
      change (replace_global trim_matcher r (String.length r) false
              = EmptyString).
      by apply replace_global_skip_all.
    + change (replace_global trim_matcher (String d (core +:+ r)) O true
              = String d core).
      simpl in Hstart. simpl. unfold trim_matcher at 1. simpl.
      rewrite Hstart. simpl.
      by rewrite trim_tail by eauto using ends_with_tail.
  - simpl in Hl. apply andb_prop in Hl as [Hc Hl].
    change (replace_global trim_matcher
              (String c (l +:+ core +:+ r)) O true = core).
    simpl. unfold trim_matcher at 1. simpl. rewrite Hc. simpl.
    rewrite leading_spaces_app by done.
    destruct core as [|d core].
    + change (EmptyString +:+ r) with r.
      rewrite leading_spaces_all by done.
      rewrite <- FmtFacts.length_append.
      change (replace_global trim_matcher (l +:+ r)
                 (String.length (l +:+ r)) false = EmptyString).
      by apply replace_global_skip_all.
    + simpl in Hstart.
      change (leading_spaces (String d core +:+ r))
        with (leading_spaces (String d (core +:+ r))).
      simpl leading_spaces. rewrite Hstart, Nat.add_0_r.
      change (replace_global trim_matcher (l +:+ String d core +:+ r)
                (String.length l) false = String d core).
      rewrite replace_global_skip. by apply trim_tail.
Qed.

Lemma split_leading (s : string) :
  ∃ l t, s = l +:+ t ∧ string_forall is_space l = true ∧
         starts_with is_space t = false.
Proof.
  induction s as [|c s (l & t & -> & Hl & Ht)].
  - by exists EmptyString, EmptyString.
  - destruct (is_space c) eqn:Hc.
    + exists (String c l), t. split_and!; [done| |done]. simpl. by rewrite Hc.
    + by exists EmptyString, (String c (l +:+ t)).
Qed.

Lemma split_trailing (t : string) :
  ∃ core r, t = core +:+ r ∧ string_forall is_space r = true ∧
            ends_with is_space core = false ∧
            (starts_with is_space t = false →
             starts_with is_space core = false).
Proof.
  induction t as [|c t (core & r & -> & Hr & Hcore & _)].
  - by exists EmptyString, EmptyString.
  - destruct core as [|d core]; [destruct (is_space c) eqn:Hc|].
    + exists EmptyString, (String c r). split_and!; try done.
      simpl. by rewrite Hc.
    + exists (String c EmptyString), r. by split_and!.
    + exists (String c (String d core)), r. by split_and!.
Qed.

Lemma trim_decompose (s : string) :
  ∃ l core r, s = l +:+ core +:+ r ∧ string_forall is_space l = true ∧
              string_forall is_space r = true ∧ trimmed core = true.
Proof.
  destruct (split_leading s) as (l & t & -> & Hl & Ht).
  destruct (split_trailing t) as (core & r & -> & Hr & Hend & Hstart).
  exists l, core, r. split_and!; try done.
  unfold trimmed. by rewrite Hstart, Hend.
Qed.

(** X10.  [trim] removes the white space at the two ends and nothing else:
    of white space, a text with none at its ends, and white space again,
    it returns the text. *)
Theorem trim_removes_the_edges (l core r : string) :
  ascii_text (l +:+ core +:+ r) = true →
  string_forall is_space l = true → string_forall is_space r = true →
  trimmed core = true →
  trim (l +:+ core +:+ r) = core.
Proof. intros _. apply trim_parts. Qed.

Lemma trim_removes_the_edges_witness :
  trim ("  " +:+ "a  b c" +:+ " ") = "a  b c".
Proof. by apply trim_removes_the_edges. Defined.

(** X11.  Every ASCII string is its [trim] between two runs of white space;
    the result has no white space at either end, and trimming it again
    changes nothing. *)
Theorem trim_result (s : string) :
  ascii_text s = true →
  (∃ l r, string_forall is_space l = true ∧ string_forall is_space r = true ∧
          s = l +:+ trim s +:+ r) ∧
  trimmed (trim s) = true ∧
  trim (trim s) = trim s.
Proof.
  intros _. destruct (trim_decompose s) as (l & core & r & -> & Hl & Hr & Hc).
  rewrite trim_parts by done. split_and!; [by exists l, r|done|].
  rewrite <- (trim_parts EmptyString core EmptyString) at 2 by done.
  change (EmptyString +:+ core +:+ EmptyString) with (core +:+ EmptyString).
  by rewrite FmtFacts.append_empty_r.
Qed.

Lemma trim_result_witness :
  (∃ l r, string_forall is_space l = true ∧ string_forall is_space r = true ∧
          " a b  " = l +:+ trim " a b  " +:+ r) ∧
  trimmed (trim " a b  ") = true ∧
  trim (trim " a b  ") = trim " a b  ".
Proof. by apply trim_result. Defined.

(** ** [w] *)


Lemma w_cons (s : string) : ∃ p ps, w s = p :: ps.
Proof.
  induction s as [|c s (p & ps & IH)]; simpl; [by eexists _, _|].
  destruct (Ascii.eqb c " "); [by eexists _, _|]. rewrite IH. by eexists _, _.
Qed.

(** X12.  [w] cuts at every space and loses nothing: joining the pieces
    with a space gives the string back, no piece has a space, and there is
    one piece more than there are spaces. *)
Theorem w_splits_at_spaces (s : string) :
  join " " (w s) = s ∧
  Forall (λ p, free_of is_the_space p = true) (w s) ∧
  length (w s) = S (count_char is_the_space s).
Proof.
  induction s as [|c s (Hjoin & Hfree & Hlen)]; [by repeat constructor|].
  destruct (w_cons s) as (p & ps & Hw). simpl. unfold is_the_space at 2.
  rewrite Hw in *. destruct (Ascii.eqb_spec c " ") as [->|Hc].
  - split_and!.
    + change (String " " (join " " (p :: ps)) = String " " s). by rewrite Hjoin.
    + by constructor.
    + simpl in *. lia.
  - apply Forall_cons in Hfree as [Hp Hps]. split_and!.
    + rewrite <- Hjoin. by destruct ps.
    + constructor; [|done]. unfold free_of, is_the_space. simpl.
      apply andb_true_intro. split; [|done].
      apply negb_true_iff. by apply Ascii.eqb_neq.
    + simpl in *. lia.
Qed.

(** ** Separators in [camelize] *)

Lemma camel_step c (s : string) b :
  replace_global camel_matcher (String c s) O b =
  if is_separator c then
    match s with
    | String d s' =>
        if is_separator d then replace_global camel_matcher s O false
        else String (char_toUpperCase d)
               (replace_global camel_matcher s' O false)
    | EmptyString => EmptyString
    end
  else String c (replace_global camel_matcher s O false).
Proof.
  unfold camel_matcher. rewrite replace_titleize_step.
  destruct (is_separator c); [|done].
  destruct s as [|d s]; [done|]. by destruct (is_separator d).
Qed.

Lemma replace_camel_separators (f : ascii → ascii) :
  (∀ c, is_separator (f c) = is_separator c) →
  (∀ c, is_separator c = false → f c = c) →
  ∀ s b, replace_global camel_matcher (string_map f s) O b
         = replace_global camel_matcher s O b.
Proof.
  intros Hsep Hid s.
  induction s as [|c|c d s IH1 IH2] using string_ind2; intros b.
  - done.
  - cbn [string_map]. rewrite (camel_step (f c)), (camel_step c), Hsep.
    destruct (is_separator c) eqn:Hc; [done|]. by rewrite Hid.
  - cbn [string_map]. rewrite (camel_step (f c)), (camel_step c), !Hsep.
    destruct (is_separator c) eqn:Hc; [destruct (is_separator d) eqn:Hd|].
    + apply (IH2 false).
    + rewrite (Hid d) by done. f_equal. apply (IH1 false).
    + rewrite (Hid c) by done. f_equal. apply (IH2 false).
Qed.

(** X13.  [camelize] and [classify] do not tell one separator from
    another: exchanging separators for separators in the receiver does not
    change the result. *)
Theorem camelize_any_separator (f : ascii → ascii) (s : string) :
  ascii_text s = true →
  (∀ c, is_separator (f c) = is_separator c) →
  (∀ c, is_separator c = false → f c = c) →
  camelize (string_map f s) = camelize s ∧
  classify (string_map f s) = classify s.
Proof.
  intros _ Hsep Hid. rewrite !camelize_eq, !classify_eq. unfold replace.
  by rewrite replace_camel_separators.
Qed.

Lemma camelize_any_separator_witness :
  camelize (string_map to_dash "my favorite_items") =
    camelize "my favorite_items" ∧
  classify (string_map to_dash "my favorite_items") =
    classify "my favorite_items".
Proof.
  apply camelize_any_separator; [done|intros c; each_char c..].
Defined.

(** ** From snake case to camel case and back *)

Lemma is_lower_not_separator c : is_lower c = true → is_separator c = false.
Proof. each_char c. Qed.

Lemma is_lower_not_upper c : is_lower c = true → is_upper c = false.
Proof. each_char c. Qed.

Lemma is_upper_toUpperCase c :
  is_lower c = true → is_upper (char_toUpperCase c) = true.
Proof. each_char c. Qed.

Lemma toLowerCase_toUpperCase_lower c :
  is_lower c = true → char_toLowerCase (char_toUpperCase c) = c.
Proof. each_char c. Qed.

Lemma toLowerCase_lower c : is_lower c = true → char_toLowerCase c = c.
Proof. each_char c. Qed.

Lemma word_inv (w : string) :
  word w = true →
  ∃ c w', w = String c w' ∧ is_lower c = true ∧
          string_forall is_lower w' = true.
Proof.
  destruct w as [|c w']; [done|]. unfold word. simpl.
  rewrite andb_true_r. intros [Hc Hw]%andb_prop. by exists c, w'.
Qed.

Lemma long_words_inv w (ws : list string) :
  long_words (w :: ws) = true →
  word w = true ∧
  (ws = [] ∨ (2 ≤ String.length w)%nat ∧ long_words ws = true).
Proof.
  destruct ws as [|w' ws]; [by auto|]. cbn [long_words].
  intros [[Hw Hlen%Nat.leb_le]%andb_prop Hws]%andb_prop. by auto.
Qed.

Lemma long_words_words (ws : list string) :
  long_words ws = true → Forall (λ w, word w = true) ws.
Proof.
  induction ws as [|w ws IH]; [done|].
  intros [Hw [->|[_ Hws]]]%long_words_inv; constructor; auto.
Qed.

Lemma join_tails (w : string) (ws : list string) :
  join "_" (w :: ws) = w +:+ tails (λ w, w) ws.
Proof.
  revert w. induction ws as [|w' ws IH]; intros w.
  - by rewrite FmtFacts.append_empty_r.
  - change (w +:+ String "_" (join "_" (w' :: ws))
            = w +:+ String "_" (w' +:+ tails (λ w, w) ws)).
    by rewrite IH.
Qed.

Lemma lower_free_of_separator (s : string) :
  string_forall is_lower s = true → free_of is_separator s = true.
Proof.
  apply string_forall_impl. intros c Hc.
  by rewrite is_lower_not_separator.
Qed.

Lemma lower_free_of_upper (s : string) :
  string_forall is_lower s = true → free_of is_upper s = true.
Proof.
  apply string_forall_impl. intros c Hc. by rewrite is_lower_not_upper.
Qed.

Lemma camel_words (ws : list string) :
  Forall (λ w, word w = true) ws →
  ∀ u b, string_forall is_lower u = true →
  replace_global camel_matcher (u +:+ tails (λ w, w) ws) O b
  = u +:+ humps ws.
Proof.
  induction 1 as [|w ws Hw Hws IH]; intros u b Hu.
  - apply (replace_global_id _ _ camel_matcher_free).
    rewrite FmtFacts.append_empty_r. by apply lower_free_of_separator.
  - destruct (word_inv _ Hw) as (c & w' & -> & Hc & Hw').
    revert b. induction u as [|a u IHu]; intros b.
    + change (replace_global camel_matcher
                (String "_" (String c (w' +:+ tails (λ w, w) ws))) O b
              = String (char_toUpperCase c) (w' +:+ humps ws)).
      rewrite camel_step. change (is_separator "_") with true.
      cbv iota. by rewrite is_lower_not_separator, IH.
    + simpl in Hu. apply andb_prop in Hu as [Ha Hu].
      change (replace_global camel_matcher
                (String a (u +:+ tails (λ w, w) (String c w' :: ws))) O b
              = String a (u +:+ humps (String c w' :: ws))).
      rewrite camel_step, is_lower_not_separator by done.
      by rewrite IHu.
Qed.

Lemma hump_step a c (s : string) b :
  replace_global hump_matcher (String a (String c s)) O b =
  if is_lower a && is_upper c
  then String a (String "_" (String c
         (replace_global hump_matcher s O false)))
  else String a (replace_global hump_matcher (String c s) O false).
Proof.
  cbn [replace_global hump_matcher]. by destruct (is_lower a && is_upper c).
Qed.

Lemma hump_lower (s : string) b :
  string_forall is_lower s = true →
  replace_global hump_matcher s O b = s.
Proof.
  intros Hs. apply (replace_global_id _ _ hump_matcher_free).
  by apply lower_free_of_upper.
Qed.

Lemma hump_words (ws : list string) :
  ∀ u b, string_forall is_lower u = true → u ≠ EmptyString →
  long_words ws = true →
  replace_global hump_matcher (u +:+ humps ws) O b
  = u +:+ tails hump ws.
Proof.
  induction ws as [|w ws IH]; intros u b Hu Hne Hws.
  - apply hump_lower. by rewrite FmtFacts.append_empty_r.
  - apply long_words_inv in Hws as [Hw Hws].
    destruct (word_inv _ Hw) as (c & w' & -> & Hc & Hw').
    assert (replace_global hump_matcher (w' +:+ humps ws) O false
            = w' +:+ tails hump ws) as Hrest.
    { destruct Hws as [->|[Hlen Hws]].
      - apply hump_lower. by rewrite FmtFacts.append_empty_r.
      - apply IH; [done| |done]. intros ->. simpl in Hlen. lia. }
    clear IH Hws. revert b.
    induction u as [|a u IHu]; intros b; [done|].
    simpl in Hu. apply andb_prop in Hu as [Ha Hu].
    destruct u as [|a' u].
    + change (replace_global hump_matcher
                (String a (String (char_toUpperCase c) (w' +:+ humps ws)))
                O b
              = String a (String "_" (String (char_toUpperCase c)
                                        (w' +:+ tails hump ws)))).
      by rewrite hump_step, Ha, is_upper_toUpperCase, Hrest.
    + change (replace_global hump_matcher
                (String a (String a' (u +:+ humps (String c w' :: ws)))) O b
              = String a (String a' u +:+ tails hump (String c w' :: ws))).
      simpl in Hu. apply andb_prop in Hu as [Ha' Hu'].
      rewrite hump_step, (is_lower_not_upper a'), andb_false_r by done.
      f_equal. apply IHu; [|done]. simpl. by rewrite Ha'.
Qed.

Lemma toLowerCase_word (s : string) :
  string_forall is_lower s = true → toLowerCase s = s.
Proof. apply string_map_id, toLowerCase_lower. Qed.

Lemma toLowerCase_tails (ws : list string) :
  Forall (λ w, word w = true) ws →
  toLowerCase (tails hump ws) = tails (λ w, w) ws.
Proof.
  induction 1 as [|w ws Hw Hws IH]; [done|].
  destruct (word_inv _ Hw) as (c & w' & -> & Hc & Hw').
  change (toLowerCase (String "_" (String (char_toUpperCase c)
                                     (w' +:+ tails hump ws)))
          = String "_" (String c (w' +:+ tails (λ w, w) ws))).
  pose proof (toLowerCase_word w' Hw') as Hl.
  unfold toLowerCase in *. cbn [string_map].
  by rewrite string_map_app, IH, Hl, toLowerCase_toUpperCase_lower.
Qed.

(** X14.  Snake case survives the way through camel case: for words of
    lower-case letters joined by underscores, [camelize] gives the first
    word followed by the others capitalized; and, if every word between
    the first and the last has at least two letters, [decamelize] of that
    gives the receiver back. *)
Theorem decamelize_camelize_round_trip (first : string) (ws : list string) :
  word first = true → Forall (λ x, word x = true) ws →
  camelize (join "_" (first :: ws)) = first +:+ humps ws ∧
  (long_words ws = true →
   decamelize (camelize (join "_" (first :: ws))) = join "_" (first :: ws)).
Proof.
  intros Hfirst Hwords.
  destruct (word_inv _ Hfirst) as (c & w' & -> & Hc & Hw').
  assert (string_forall is_lower (String c w') = true) as Hlower
    by (simpl; by rewrite Hc).
  assert (camelize (join "_" (String c w' :: ws)) = String c w' +:+ humps ws)
    as ->.
  { rewrite camelize_eq, join_tails. unfold replace.
    rewrite camel_words by done.
    change (String (char_toLowerCase c) (w' +:+ humps ws)
            = String c (w' +:+ humps ws)).
    by rewrite toLowerCase_lower. }
  split; [done|]. intros Hlong. unfold decamelize, replace.
  rewrite hump_words, join_tails by done.
  unfold toLowerCase. rewrite string_map_app.
  fold (toLowerCase (String c w')). fold (toLowerCase (tails hump ws)).
  by rewrite toLowerCase_word, toLowerCase_tails.
Qed.

Lemma decamelize_camelize_round_trip_witness :
  camelize (join "_" ["my"; "favorite"; "items"; "x"])
    = "my" +:+ humps ["favorite"; "items"; "x"] ∧
  decamelize (camelize (join "_" ["my"; "favorite"; "items"; "x"]))
    = join "_" ["my"; "favorite"; "items"; "x"].
Proof.
  destruct (decamelize_camelize_round_trip "my" ["favorite"; "items"; "x"])
    as [Hcamel Hback]; [done|by repeat constructor|].
  split; [exact Hcamel|by apply Hback].
Defined.

End CaseFacts.

(** * What one call changes in [getMembers] *)
Module ObserverSetEffects.
Import ObserverSet ObserverSetFacts.

Section Effects.

Variable guidFor : ref → string.

Local Abbreviation targetGuid := (ObserverSet.targetGuid guidFor).
Local Abbreviation add := (ObserverSet.add guidFor).
Local Abbreviation remove := (ObserverSet.remove guidFor).
Local Abbreviation wf := (ObserverSet.wf guidFor).
Local Abbreviation run := (ObserverSet.run guidFor).

Lemma target_Set_remove m s : target (Set_remove m s) = target s.
Proof. done. Qed.

Lemma isTargetSet_Set_remove m s :
  isTargetSet (Set_remove m s) = isTargetSet s.
Proof. done. Qed.

(** The guid of a member's target is the key of its set. *)
Lemma member_key this h key (l : loc) s :
  wf this h → sets this !! key = Some l → Sets h !! l = Some s →
  isTargetSet s = true ∧ items s ≠ [] ∧ targetGuid (target s) = key.
Proof.
  intros Hwf Hl Hs.
  destruct (wf_sets _ _ _ Hwf _ _ Hl) as (s' & Hs' & ? & ? & _ & ?).
  by simplify_eq.
Qed.

Lemma unknown_target_no_member this h t o m :
  wf this h → sets this !! targetGuid t = None →
  (o, m) ∈ current_members this h → targetGuid o ≠ targetGuid t.
Proof.
  intros Hwf Hnone (key & l & s & Hl & Hs & _ & <- & _)%elem_of_current_members.
  destruct (member_key _ _ _ _ _ Hwf Hl Hs) as (_ & _ & ->).
  intros ->. congruence.
Qed.

Lemma known_target_member this h t (l : loc) :
  wf this h → sets this !! targetGuid t = Some l →
  ∃ s m0, Sets h !! l = Some s ∧ targetGuid (target s) = targetGuid t ∧
          (target s, m0) ∈ current_members this h.
Proof.
  intros Hwf Hl.
  destruct (wf_sets _ _ _ Hwf _ _ Hl) as (s & Hs & Hmark & Hne & _ & Hkey).
  destruct (items s) as [|m0 ms] eqn:Hitems; [done|].
  exists s, m0. split_and!; [done..|].
  apply elem_of_current_members. exists (targetGuid t), l, s.
  split_and!; try done. rewrite Hitems. apply list_elem_of_here.
Qed.

Lemma add_members this h t m :
  wf this h →
  ∃ this' h' o,
    add this t m h = Some (this', h') ∧ wf this' h' ∧
    targetGuid o = targetGuid t ∧
    (∀ o' m', (o', m') ∈ current_members this' h' ↔
              (o', m') ∈ current_members this h ∨ (o' = o ∧ m' = m)) ∧
    (∀ o' m', (o', m') ∈ current_members this h →
              targetGuid o' = targetGuid t → o' = o) ∧
    (is_Some (sets this !! targetGuid t) → targets this' = targets this) ∧
    (sets this !! targetGuid t = None →
     o = t ∧ targets this' = (targets this + 1)%Z).
Proof.
  intros Hwf.
  destruct (add_spec guidFor this t m h Hwf)
    as (this' & h' & Hadd & Hwf' & _).
  destruct (sets this !! targetGuid t) as [l|] eqn:Hl.
  - destruct (known_target_member _ _ _ _ Hwf Hl) as (s & m0 & Hs & Hkey & _).
    pose proof (lookup_lt_Some _ _ _ Hs) as Hlt.
    rewrite (add_known guidFor this t m h l s Hl Hs) in Hadd.
    injection Hadd as <- <-.
    eexists _, _, (target s). split_and!; try done.
    + apply add_known; done.
    + intros o' m'. rewrite !elem_of_current_members. simpl.
      split.
      * intros (key & l0 & s0 & Hl0 & Hs0 & Hmark & Ho & Hm).
        destruct (decide (l0 = l)) as [->|Hne].
        -- rewrite list_lookup_insert_eq in Hs0 by done.
           injection Hs0 as <-.
           rewrite target_Set_add in Ho. rewrite isTargetSet_Set_add in Hmark.
           apply (elem_of_Set_add guidFor) in Hm as [->|Hm]; [by right|].
           left. by exists key, l, s.
        -- rewrite list_lookup_insert_ne in Hs0 by done.
           left. by exists key, l0, s0.
      * intros [(key & l0 & s0 & Hl0 & Hs0 & Hmark & Ho & Hm)|[-> ->]].
        -- destruct (decide (l0 = l)) as [->|Hne].
           ++ exists key, l, (Set_add m s). simplify_eq.
              rewrite list_lookup_insert_eq by done.
              rewrite target_Set_add, isTargetSet_Set_add,
                (elem_of_Set_add guidFor).
              split_and!; auto.
           ++ exists key, l0, s0.
              by rewrite list_lookup_insert_ne by done.
        -- destruct (member_key _ _ _ _ _ Hwf Hl Hs) as (Hmark & _).
           exists (targetGuid t), l, (Set_add m s).
           rewrite list_lookup_insert_eq by done.
           rewrite target_Set_add, isTargetSet_Set_add,
                (elem_of_Set_add guidFor).
           split_and!; auto.
    + intros o' m' (key & l0 & s0 & Hl0 & Hs0 & _ & <- & _)%elem_of_current_members Heq.
      destruct (member_key _ _ _ _ _ Hwf Hl0 Hs0) as (_ & _ & Hk).
      rewrite Heq in Hk. subst key. by simplify_eq.
  - rewrite (add_new guidFor this t m h Hl) in Hadd.
    injection Hadd as <- <-.
    eexists _, _, t. split_and!; try done.
    + by apply add_new.
    + intros o' m'. rewrite !elem_of_current_members. simpl.
      split.
      * intros (key & l0 & s0 & Hl0 & Hs0 & Hmark & Ho & Hm).
        destruct (decide (key = targetGuid t)) as [->|Hne].
        -- rewrite lookup_insert_eq in Hl0. injection Hl0 as <-.
           rewrite lookup_app_r, Nat.sub_diag in Hs0 by done.
           injection Hs0 as <-. simpl in *.
           apply list_elem_of_singleton in Hm. by right.
        -- rewrite lookup_insert_ne in Hl0 by done.
           pose proof (set_ok_lt _ _ _ _ (wf_sets _ _ _ Hwf _ _ Hl0)).
           rewrite lookup_app_l in Hs0 by done.
           left. by exists key, l0, s0.
      * intros [(key & l0 & s0 & Hl0 & Hs0 & Hmark & Ho & Hm)|[-> ->]].
        -- exists key, l0, s0.
           rewrite lookup_insert_ne by congruence.
           rewrite lookup_app_l by by eapply lookup_lt_Some.
           done.
        -- eexists (targetGuid t), _, _.
           rewrite lookup_insert_eq, lookup_app_r, Nat.sub_diag by done.
           split_and!; try done. apply list_elem_of_here.
    + intros o' m' Hin Heq.
      by destruct (unknown_target_no_member _ _ t _ _ Hwf Hl Hin).
Qed.

Lemma remove_members this h t m :
  wf this h →
  ∃ b this' h',
    remove this t m h = Some ((b, this'), h') ∧ wf this' h' ∧
    (b = true ↔
     ∃ o' m', (o', m') ∈ current_members this h ∧
              targetGuid o' = targetGuid t) ∧
    (∀ o' m', (o', m') ∈ current_members this' h' ↔
              (o', m') ∈ current_members this h ∧
              ¬ (targetGuid o' = targetGuid t ∧ m' = m)) ∧
    (b = false → this' = this ∧ h' = h).
Proof.
  intros Hwf.
  destruct (remove_spec guidFor this t m h Hwf)
    as (b & this' & h' & Hrem & Hwf' & _).
  destruct (sets this !! targetGuid t) as [l|] eqn:Hl.
  - destruct (known_target_member _ _ _ _ Hwf Hl)
      as (s & m0 & Hs & Hkey & Hm0).
    pose proof (lookup_lt_Some _ _ _ Hs) as Hlt.
    assert (∀ key (l0 : loc), sets this !! key = Some l0 →
              l0 = l ↔ key = targetGuid t) as Hsame.
    { intros key l0 Hl0. split; [intros ->|intros ->; congruence].
      by eapply (wf_inj _ _ _ Hwf). }
    destruct (decide (filter (λ x, x ≠ m) (items s) = [])) as [Hlast|Hsome].
    + rewrite (remove_last guidFor this t m h l s Hl Hs Hlast) in Hrem.
      injection Hrem as <- <- <-.
      eexists _, _, _. split_and!; [by eapply remove_last|done| | |done].
      { split; [intros _|done]. by exists (target s), m0. }
      intros o' m'. rewrite !elem_of_current_members. simpl.
      split.
      * intros (key & l0 & s0 & Hl0 & Hs0 & Hmark & Ho & Hm).
        apply lookup_delete_Some in Hl0 as [Hne Hl0].
        assert (l0 ≠ l) as Hne' by (intros ?%(Hsame _ _ Hl0); done).
        rewrite list_lookup_insert_ne in Hs0 by done.
        split; [by exists key, l0, s0|]. intros [Heq _].
        destruct (member_key _ _ _ _ _ Hwf Hl0 Hs0) as (_ & _ & Hk).
        congruence.
      * intros [(key & l0 & s0 & Hl0 & Hs0 & Hmark & Ho & Hm) Hnot].
        destruct (decide (key = targetGuid t)) as [->|Hne].
        -- simplify_eq. destruct Hnot. split; [done|].
           by eapply filter_nil_all.
        -- assert (l0 ≠ l) as Hne' by (intros ?%(Hsame _ _ Hl0); done).
           exists key, l0, s0. rewrite lookup_delete_ne by done.
           by rewrite list_lookup_insert_ne by done.
    + rewrite (remove_some guidFor this t m h l s Hl Hs Hsome) in Hrem.
      injection Hrem as <- <- <-.
      eexists _, _, _. split_and!; [by eapply remove_some|done| | |done].
      { split; [intros _|done]. by exists (target s), m0. }
      intros o' m'. rewrite !elem_of_current_members. simpl.
      split.
      * intros (key & l0 & s0 & Hl0 & Hs0 & Hmark & Ho & Hm).
        destruct (decide (l0 = l)) as [->|Hne].
        -- rewrite list_lookup_insert_eq in Hs0 by done.
           injection Hs0 as <-.
           rewrite target_Set_remove in Ho.
           rewrite isTargetSet_Set_remove in Hmark.
           apply elem_of_Set_remove in Hm as [Hmm Hm].
           split; [by exists key, l, s|]. by intros [_ ?].
        -- rewrite list_lookup_insert_ne in Hs0 by done.
           split; [by exists key, l0, s0|]. intros [Heq _].
           destruct (member_key _ _ _ _ _ Hwf Hl0 Hs0) as (_ & _ & Hk).
           apply Hne, (Hsame _ _ Hl0). congruence.
      * intros [(key & l0 & s0 & Hl0 & Hs0 & Hmark & Ho & Hm) Hnot].
        destruct (decide (l0 = l)) as [->|Hne].
        -- simplify_eq. exists key, l, (Set_remove m s).
           rewrite list_lookup_insert_eq by done.
           rewrite target_Set_remove, isTargetSet_Set_remove,
             elem_of_Set_remove.
           split_and!; try done. intros ->. by apply Hnot.
        -- exists key, l0, s0. by rewrite list_lookup_insert_ne by done.
  - rewrite (remove_unknown guidFor this t m h Hl) in Hrem.
    injection Hrem as <- <- <-.
    eexists _, _, _. split_and!; [by apply remove_unknown|done| | |done].
    + split; [done|]. intros (o' & m' & Hin & Heq).
      by destruct (unknown_target_no_member _ _ t _ _ Hwf Hl Hin).
    + intros o' m'. split; [|by intros [? _]].
      intros Hin. split; [done|]. intros [Heq _].
      by destruct (unknown_target_no_member _ _ t _ _ Hwf Hl Hin).
Qed.

(** X15.  What [add] changes: after any sequence of calls, [add] of a
    target and a method puts one pair with that method into [getMembers]
    and takes nothing out.  The owner of the pair has the guid of the
    target: it is the owner [getMembers] already lists for that guid, and
    the target itself when there is none, in which case [targets] grows
    by one; otherwise [targets] stays. *)
Theorem add_extends_members
    (cs : list call) (h0 : heap) (t : value) (m : method) :
  ∃ this h ms this' h' ms' o,
    run cs h0 = Some (this, h) ∧
    members this h = Some ms ∧
    add this t m h = Some (this', h') ∧
    members this' h' = Some ms' ∧
    targetGuid o = targetGuid t ∧
    (∀ om, om ∈ ms' ↔ om ∈ ms ∨ om = (o, m)) ∧
    (∀ o' m', (o', m') ∈ ms → targetGuid o' = targetGuid t → o' = o) ∧
    ((∃ o' m', (o', m') ∈ ms ∧ targetGuid o' = targetGuid t) →
     targets this' = targets this) ∧
    ((∀ o' m', (o', m') ∈ ms → targetGuid o' ≠ targetGuid t) →
     o = t ∧ targets this' = (targets this + 1)%Z).
Proof.
  destruct (run_spec guidFor cs h0) as (this & h & Hrun & Hwf & _).
  destruct (add_members this h t m Hwf)
    as (this' & h' & o & Hadd & Hwf' & Ho & Hiff & Huniq & Hknown & Hnew).
  exists this, h, (current_members this h), this', h',
    (current_members this' h'), o.
  split_and!; try done.
  - by eapply members_eq.
  - by eapply members_eq.
  - intros [o' m']. rewrite Hiff. split.
    + intros [?|[-> ->]]; [by left|by right].
    + intros [?|[= -> ->]]; [by left|by right].
  - intros (o' & m' & Hin & Heq). apply Hknown.
    destruct (sets this !! targetGuid t) eqn:Hl; [done|].
    by destruct (unknown_target_no_member _ _ t _ _ Hwf Hl Hin).
  - intros Hnone. apply Hnew.
    destruct (sets this !! targetGuid t) as [l|] eqn:Hl; [|done].
    destruct (known_target_member _ _ _ _ Hwf Hl) as (s & m0 & _ & Hk & Hin).
    by destruct (Hnone _ _ Hin).
Qed.

(** X16.  What [remove] changes: after any sequence of calls, [remove] of
    a target and a method takes out of [getMembers] the pairs with that
    method whose owner has the guid of the target, and nothing else.  It
    answers YES exactly when [getMembers] listed some pair for that guid,
    and when it answers NO the object and the heap are as before. *)
Theorem remove_takes_one_pair
    (cs : list call) (h0 : heap) (t : value) (m : method) :
  ∃ this h ms b this' h' ms',
    run cs h0 = Some (this, h) ∧
    members this h = Some ms ∧
    remove this t m h = Some ((b, this'), h') ∧
    members this' h' = Some ms' ∧
    (b = true ↔ ∃ o' m', (o', m') ∈ ms ∧ targetGuid o' = targetGuid t) ∧
    (∀ o' m', (o', m') ∈ ms' ↔
              (o', m') ∈ ms ∧ ¬ (targetGuid o' = targetGuid t ∧ m' = m)) ∧
    (b = false → this' = this ∧ h' = h).
Proof.
  destruct (run_spec guidFor cs h0) as (this & h & Hrun & Hwf & _).
  destruct (remove_members this h t m Hwf)
    as (b & this' & h' & Hrem & Hwf' & Hb & Hiff & Hno).
  exists this, h, (current_members this h), b, this', h',
    (current_members this' h').
  split_and!; try done; by eapply members_eq.
Qed.

(** X17.  [getMembers] only reads the sets: after any sequence of calls it
    leaves the stored sets, their contents and [targets] as they are, and
    a second call right after the first returns the same array and changes
    neither the object nor the heap. *)
Theorem getMembers_twice (cs : list call) (h0 : heap) :
  ∃ this h a this1 h1 ms,
    run cs h0 = Some (this, h) ∧
    getMembers this h = Some ((Some a, this1), h1) ∧
    Arrays h1 !! a = Some ms ∧
    sets this1 = sets this ∧ targets this1 = targets this ∧
    Sets h1 = Sets h ∧
    getMembers this1 h1 = Some ((Some a, this1), h1).
Proof.
  destruct (run_spec guidFor cs h0) as (this & h & Hrun & Hwf & _).
  destruct (getMembers_spec guidFor this h Hwf)
    as (a & this1 & h1 & Hget & _ & _ & Hsets & Hkeys & Htargets & Ha &
        Hvalid & Harr & _).
  exists this, h, a, this1, h1, (current_members this h).
  split_and!; try done.
  by rewrite getMembers_cached, Ha.
Qed.

End Effects.
End ObserverSetEffects.

(** * [clone] and the mark [isTargetSet] *)
Module CloneFacts.
Import ObserverSet ObserverSetFacts.

Lemma clone_with_Set_clone (this : ObserverSet) :
  clone_with Set_clone this = clone this.
Proof. reflexivity. Qed.

Lemma clone_body_with_eq set_clone ret_ key (l : loc) hcur s :
  Sets hcur !! l = Some s →
  isTargetSet s = true →
  clone_body_with set_clone ret_ (key, l) hcur
  = Some (with_sets (insert key (length (Sets hcur))) ret_,
          {| Sets := Sets hcur ++ [cloned set_clone s];
             Arrays := Arrays hcur |}).
Proof.
  intros Hs Hmark. unfold clone_body_with. unfold_M. rewrite Hs, Hmark. simpl.
  assert (l < length (Sets hcur)) by by eapply lookup_lt_Some.
  rewrite lookup_app_l, Hs by done. simpl.
  rewrite list_lookup_middle by done.
  by rewrite insert_app_r_alt, Nat.sub_diag by done.
Qed.

Section Clone.

Variable guidFor : ref → string.
Variable set_clone : SCSet → SCSet.

Local Abbreviation wf := (ObserverSet.wf guidFor).
Local Abbreviation run := (ObserverSet.run guidFor).
Local Abbreviation clone_with_inv := (ObserverSet.clone_with_inv set_clone).

Lemma clone_body_with_inv this h seen ret_ hcur key (l : loc) :
  wf this h →
  clone_with_inv this h seen ret_ hcur →
  sets this !! key = Some l →
  ∃ ret' h', clone_body_with set_clone ret_ (key, l) hcur = Some (ret', h') ∧
             clone_with_inv this h (seen ++ [key]) ret' h'.
Proof.
  intros Hwf (Harr & [extra Hext] & Hmem & Hnew & Hseen) Hl.
  destruct (wf_sets _ _ _ Hwf _ _ Hl) as (s & Hs & Hmark & _).
  assert (l < length (Sets h)) as Hlt by by eapply lookup_lt_Some.
  assert (Sets hcur !! l = Some s) as Hs'
    by by rewrite Hext, lookup_app_l.
  eexists _, _. split; [by apply clone_body_with_eq|].
  assert (length (Sets h) ≤ length (Sets hcur))%nat as Hle
    by (rewrite Hext, length_app; lia).
  split_and!; simpl.
  - done.
  - exists (extra ++ [cloned set_clone s]). by rewrite Hext, app_assoc.
  - done.
  - intros key' l'. rewrite lookup_insert. case_decide as Hk.
    + intros [= <-]. subst key'. split; [done|].
      exists l, s. split_and!; [done..|]. by apply list_lookup_middle.
    + intros Hl'. destruct (Hnew _ _ Hl') as (Hge & l0 & s0 & ? & ? & Hcur).
      split; [done|]. exists l0, s0. split_and!; [done..|].
      rewrite lookup_app_l; [done|]. by eapply lookup_lt_Some.
  - intros key'. rewrite elem_of_app, list_elem_of_singleton, <- Hseen.
    rewrite lookup_insert. case_decide as Hk.
    + subst key'. split; [by right|eauto].
    + split; [by left|]. intros [?|?]; [done|congruence].
Qed.

(** What [clone_with] builds: a set per key of the receiver, each newly
    allocated; the heap of the receiver is left as it is. *)
Lemma clone_with_spec this h :
  wf this h →
  ∃ this' h',
    clone_with set_clone this h = Some (this', h') ∧
    Arrays h' = Arrays h ∧ (∃ extra, Sets h' = Sets h ++ extra) ∧
    targets this' = targets this ∧
    _membersCacheIsValid this' = false ∧ _members this' = None ∧
    (∀ (key : string) (l' : loc), sets this' !! key = Some l' →
       (length (Sets h) ≤ l')%nat ∧
       ∃ l s, sets this !! key = Some l ∧ Sets h !! l = Some s ∧
              Sets h' !! l' = Some (cloned set_clone s)) ∧
    (∀ key : string,
       is_Some (sets this' !! key) ↔ is_Some (sets this !! key)).
Proof.
  intros Hwf.
  destruct (for_each_inv (clone_body_with set_clone)
              (λ seen, clone_with_inv this h (seen.*1))
              (map_to_list (sets this)) create h)
    as (ret_ & h' & Hloop & Harr & Hext & Hmem & Hnew & Hseen).
  { intros seen [key l] rest st hcur Hsplit HI.
    rewrite fmap_app. apply clone_body_with_inv; [done..|].
    apply elem_of_map_to_list. rewrite Hsplit.
    apply elem_of_app. right. by left. }
  { split_and!; simpl; try done.
    - by exists []; rewrite app_nil_r.
    - intros key. rewrite lookup_empty. split; [by intros [? ?]|].
      by intros ?%not_elem_of_nil. }
  eexists _, _. split.
  { unfold clone_with. unfold mbind, M_bind. rewrite Hloop. done. }
  split_and!; simpl; try done.
  intros key. rewrite Hseen. split.
  - intros [[key' l] [-> Hin%elem_of_map_to_list]]%list_elem_of_fmap.
    by exists l.
  - intros [l Hl]. apply list_elem_of_fmap. exists (key, l).
    split; [done|]. by apply elem_of_map_to_list.
Qed.

(** What [getMembers] reports for the clone: the members of the sets that
    [SC.Set.clone] returned with the mark. *)
Lemma clone_with_members this h :
  wf this h →
  ∃ this' h',
    clone_with set_clone this h = Some (this', h') ∧
    targets this' = targets this ∧ _membersCacheIsValid this' = false ∧
    members this h' = Some (current_members this h) ∧
    members this' h' = Some (current_members this' h') ∧
    ∀ o m, (o, m) ∈ current_members this' h' ↔
      ∃ key l s, sets this !! key = Some l ∧ Sets h !! l = Some s ∧
                 isTargetSet (set_clone s) = true ∧ target s = o ∧
                 m ∈ items (set_clone s).
Proof.
  intros Hwf.
  destruct (clone_with_spec this h Hwf)
    as (this' & h' & Hclone & Harr & [extra Hext] & Ht & Hv & Hmem & Hnew &
        Hdom).
  exists this', h'. split_and!; try done.
  - destruct (wf_heap_ext guidFor this h h' Hwf) as [Hwf' Hcm]; [|done|].
    { intros l Hl. by rewrite Hext, lookup_app_l. }
    by rewrite (members_eq guidFor this h' Hwf'), Hcm.
  - unfold members. rewrite getMembers_first; [|done..|].
    + simpl. by rewrite list_lookup_middle.
    + intros key l' Hl'.
      by destruct (Hnew _ _ Hl') as (_ & l & s & _ & _ & ->).
  - intros o m. rewrite elem_of_current_members. split.
    + intros (key & l' & s' & Hl' & Hs' & Hmark & Ho & Hm).
      destruct (Hnew _ _ Hl') as (_ & l & s & Hl & Hs & Hs'').
      rewrite Hs' in Hs''. injection Hs'' as ->.
      by exists key, l, s.
    + intros (key & l & s & Hl & Hs & Hmark & Ho & Hm).
      destruct (proj2 (Hdom key)) as [l' Hl']; [by eexists|].
      destruct (Hnew _ _ Hl') as (_ & l0 & s0 & Hl0 & Hs0 & Hs').
      simplify_eq. by exists key, l', (cloned set_clone s).
Qed.

(** After any sequence of calls, the clone has the [targets] of the
    receiver and an invalid cache, and the receiver reports what it
    reported; but [clone] attaches [target] alone, so the clone reports
    the members of just the sets that [SC.Set.clone] handed over with the
    mark [isTargetSet].  If it hands over the handlers and the mark, the
    clone reports the members of the receiver; if it hands over no mark,
    the clone reports nothing. *)
Lemma clone_reports_marked_sets (cs : list call) (h0 : heap) :
  ∃ a h b h1 ma mb,
    run cs h0 = Some (a, h) ∧
    clone_with set_clone a h = Some (b, h1) ∧
    targets b = targets a ∧
    _membersCacheIsValid b = false ∧
    members a h = Some ma ∧ members a h1 = Some ma ∧
    members b h1 = Some mb ∧
    (∀ o m, (o, m) ∈ mb ↔
       ∃ key l s, sets a !! key = Some l ∧ Sets h !! l = Some s ∧
                  isTargetSet (set_clone s) = true ∧ target s = o ∧
                  m ∈ items (set_clone s)) ∧
    ((∀ s, isTargetSet (set_clone s) = isTargetSet s ∧
           items (set_clone s) = items s) →
     ∀ om, om ∈ ma ↔ om ∈ mb) ∧
    ((∀ s, isTargetSet (set_clone s) = false) → mb = []).
Proof.
  destruct (run_spec guidFor cs h0) as (a & h & Hrun & Hwf & _).
  destruct (clone_with_members a h Hwf)
    as (b & h1 & Hclone & Ht & Hv & Hma & Hmb & Hiff).
  exists a, h, b, h1, (current_members a h), (current_members b h1).
  split_and!; try done.
  - by apply (members_eq guidFor).
  - intros Hkeep [o m]. rewrite Hiff, elem_of_current_members.
    split; intros (key & l & s & Hl & Hs & Hmark & Ho & Hm);
      exists key, l, s; destruct (Hkeep s) as [Hk1 Hk2];
      by rewrite ?Hk1, ?Hk2 in *.
  - intros Hnone. apply elem_of_nil_inv. intros [o m].
    rewrite Hiff. intros (_ & _ & s & _ & _ & Hmark & _).
    by rewrite Hnone in Hmark.
Qed.

End Clone.


End CloneFacts.
